(** * presenterd: the Windows BLE GATT peripheral (src/windows/ble_server.cpp)

    A shallow embedding of [parse_guid], [start_ble_server],
    [stop_ble_server], the background thread started by [start_ble_server]
    and the [WriteRequested] handler it registers, together with the part of
    the platform (Win32 / C++/WinRT) those functions call.

    The program is a controlling thread, one background thread and the
    platform's callback context sharing three globals.  It is modelled as a
    labelled transition system over a [World]: every label is one atomic
    block of the source, and the observable platform calls are recorded, in
    order, in the world's [trace]. *)

From Stdlib Require Import Ascii String.
From Stdlib Require Import List NArith ZArith Bool Lia.
From Equations Require Import Equations.
From Equations.Prop Require Import Logic.
Import ListNotations.

Local Open Scope string_scope.
Local Open Scope list_scope.
Local Open Scope N_scope.

(* ===================================================================== *)
(** ** Text: C strings, wide strings, the platform's UTF-8 conversion    *)
(* ===================================================================== *)

Module Text.

(** A [wchar_t]: one UTF-16 code unit. *)
Definition wchar := N.

(** A [const char*] argument is given by the bytes found at the pointer;
    the C string it denotes ends before the first NUL (or where the
    model's text ends, which stands for the terminator). *)
Fixpoint until_nul (s : list N) : list N :=
  match s with
  | [] => []
  | c :: t => if c =? 0 then [] else c :: until_nul t
  end.

Definition bytes_of (p : string) : list N :=
  map N_of_ascii (list_ascii_of_string p).

Definition c_chars (p : string) : list N := until_nul (bytes_of p).

Definition strlen (p : string) : nat := length (c_chars p).

(** [std::wstring(n, L'\0')]. *)
Definition wstring_fill (n : nat) (c : wchar) : list wchar := repeat c n.

(** [w.c_str()] read as a NUL-terminated wide string. *)
Definition c_str (w : list wchar) : list wchar := until_nul w.

(** *** UTF-8 to UTF-16

    The conversion the platform performs for [CP_UTF8]: a byte-driven
    decoder; an ill-formed sequence is replaced by U+FFFD.  [pending] is a
    started multi-byte sequence: the bits gathered so far and the number of
    continuation bytes still expected. *)
Definition REPLACEMENT : wchar := 0xFFFD.

Definition is_continuation (b : N) : bool := N.land b 0xC0 =? 0x80.

Definition utf16_units (cp : N) : list wchar :=
  if cp <? 0x80 then [REPLACEMENT]
  else if cp <? 0x10000 then [cp]
  else if cp <? 0x110000 then
    [0xD800 + N.shiftr (cp - 0x10000) 10; 0xDC00 + N.land (cp - 0x10000) 0x3FF]
  else [REPLACEMENT].

(** A byte met outside a sequence: the units it yields at once and the
    sequence it opens. *)
Definition lead_byte (b : N) : list wchar * option (N * nat) :=
  if b <? 0x80 then ([b], None)
  else if (0xC2 <=? b) && (b <? 0xE0) then ([], Some (N.land b 0x1F, 1%nat))
  else if (0xE0 <=? b) && (b <? 0xF0) then ([], Some (N.land b 0x0F, 2%nat))
  else if (0xF0 <=? b) && (b <? 0xF5) then ([], Some (N.land b 0x07, 3%nat))
  else ([REPLACEMENT], None).

Fixpoint utf8_decode_from (pending : option (N * nat)) (s : list N) : list wchar :=
  match s with
  | [] => match pending with None => [] | Some _ => [REPLACEMENT] end
  | b :: t =>
      match pending with
      | None =>
          let '(out, p) := lead_byte b in out ++ utf8_decode_from p t
      | Some (acc, need) =>
          if is_continuation b then
            let acc' := N.lor (N.shiftl acc 6) (N.land b 0x3F) in
            match need with
            | S (S n) => utf8_decode_from (Some (acc', S n)) t
            | _ => utf16_units acc' ++ utf8_decode_from None t
            end
          else
            let '(out, p) := lead_byte b in
            REPLACEMENT :: out ++ utf8_decode_from p t
      end
  end.

Definition utf8_decode (s : list N) : list wchar := utf8_decode_from None s.

(** *** [MultiByteToWideChar]

    The Win32 contract, for [CP_UTF8]:
    - [cbMultiByte = -1]: the source is NUL-terminated and is converted
      together with its terminator;
    - [cchWideChar = 0]: nothing is written, the required size is returned;
    - otherwise the number of units written is returned, or 0 when the
      buffer is too small (ERROR_INSUFFICIENT_BUFFER).  The contract leaves
      the buffer unspecified in that case; the units that fit are written,
      never more than [cchWideChar].
    The result is the return value and the buffer afterwards. *)
Definition CP_UTF8 : Z := 65001%Z.

Definition MultiByteToWideChar (CodePage dwFlags : Z) (lpMultiByteStr : string)
    (cbMultiByte : Z) (lpWideCharStr : list wchar) (cchWideChar : Z)
    : Z * list wchar :=
  let src :=
    if (cbMultiByte =? -1)%Z then c_chars lpMultiByteStr ++ [0]
    else firstn (Z.to_nat cbMultiByte) (bytes_of lpMultiByteStr) in
  let wide := utf8_decode src in
  let need := Z.of_nat (length wide) in
  if (cchWideChar =? 0)%Z then (need, lpWideCharStr)
  else if (need <=? cchWideChar)%Z then
    (need, wide ++ skipn (length wide) lpWideCharStr)
  else
    (0%Z, firstn (Z.to_nat cchWideChar) wide
            ++ skipn (Z.to_nat cchWideChar) lpWideCharStr).

End Text.

(* ===================================================================== *)
(** ** Identifiers: [winrt::guid] and [parse_guid]                       *)
(* ===================================================================== *)

Module Guid.
Import Text.

Record guid := mk_guid
  { Data1 : N; Data2 : N; Data3 : N; Data4 : list N }.

(** A C++ exception derived from [std::exception], with its [what()]. *)
Record std_exception := invalid_argument { what : string }.

Definition hex_to_uint (c : wchar) : option N :=
  if (48 <=? c) && (c <=? 57) then Some (c - 48)
  else if (65 <=? c) && (c <=? 70) then Some (10 + c - 65)
  else if (97 <=? c) && (c <=? 102) then Some (10 + c - 97)
  else None.

Fixpoint hex_number (acc : N) (cs : list wchar) : option N :=
  match cs with
  | [] => Some acc
  | c :: t =>
      match hex_to_uint c with
      | Some d => hex_number (16 * acc + d) t
      | None => None
      end
  end.

Fixpoint hex_octets (cs : list wchar) : option (list N) :=
  match cs with
  | hi :: lo :: t =>
      match hex_to_uint hi, hex_to_uint lo, hex_octets t with
      | Some h, Some l, Some r => Some (16 * h + l :: r)
      | _, _, _ => None
      end
  | [] => Some []
  | _ => None
  end.

Definition slice (from len : nat) (v : list wchar) : list wchar :=
  firstn len (skipn from v).

Definition dash : wchar := 45.

Definition has_guid_layout (v : list wchar) : bool :=
  Nat.eqb (length v) 36
  && (nth 8 v 0 =? dash) && (nth 13 v 0 =? dash)
  && (nth 18 v 0 =? dash) && (nth 23 v 0 =? dash).

(** Modelled from the spec: the string constructor of [winrt::guid] is
    platform code, absent from src/.  It reads the 8-4-4-4-12 hexadecimal
    text of an identifier; the spec (section 7, identifier-parse failure)
    has malformed text raise a parsing fault that the top-level catch of the
    background context handles, so the fault is a [std::exception]. *)
Definition winrt_guid (value : list wchar) : guid + std_exception :=
  if negb (has_guid_layout value) then
    inr (invalid_argument "value is not a valid GUID string")
  else
    match hex_number 0 (slice 0 8 value),
          hex_number 0 (slice 9 4 value),
          hex_number 0 (slice 14 4 value),
          hex_octets (slice 19 4 value ++ slice 24 12 value) with
    | Some d1, Some d2, Some d3, Some d4 => inl (mk_guid d1 d2 d3 d4)
    | _, _, _, _ => inr (invalid_argument "Character is not a hexadecimal digit")
    end.

(** The wide buffer [parse_guid] allocates and the conversion it runs on
    it: lines 30-31. *)
Definition parse_guid_conversion (uuid_cstr : string) : Z * list wchar :=
  let wuuid := wstring_fill (strlen uuid_cstr) 0 in
  MultiByteToWideChar CP_UTF8 0 uuid_cstr (-1) wuuid (Z.of_nat (length wuuid)).

(** [parse_guid], lines 29-33.  The value [MultiByteToWideChar] returns is
    dropped, as in the source. *)
Definition parse_guid (uuid_cstr : string) : guid + std_exception :=
  let '(_, wuuid) := parse_guid_conversion uuid_cstr in
  winrt_guid (c_str wuuid).

(** The text of a well-formed identifier. *)
Definition is_hex (c : wchar) : bool :=
  match hex_to_uint c with Some _ => true | None => false end.

Definition is_guid_text (v : list wchar) : bool :=
  has_guid_layout v
  && forallb is_hex (slice 0 8 v) && forallb is_hex (slice 9 4 v)
  && forallb is_hex (slice 14 4 v) && forallb is_hex (slice 19 4 v)
  && forallb is_hex (slice 24 12 v).

Definition well_formed_uuid (uuid_cstr : string) : bool :=
  is_guid_text (c_chars uuid_cstr).

End Guid.

Import Text Guid.

Arguments parse_guid : simpl never.

(* ===================================================================== *)
(** ** The GATT types of the platform used by the file                   *)
(* ===================================================================== *)

Module Gatt.

(** [Windows::Devices::Bluetooth::BluetoothError]. *)
Inductive BluetoothError :=
| Success | RadioNotAvailable | ResourceInUse | DeviceNotConnected
| OtherError | DisabledByPolicy | NotSupported | DisabledByUser
| ConsentRequired | TransportNotSupported.

Definition BluetoothError_eqb (a b : BluetoothError) : bool :=
  match a, b with
  | Success, Success | RadioNotAvailable, RadioNotAvailable
  | ResourceInUse, ResourceInUse | DeviceNotConnected, DeviceNotConnected
  | OtherError, OtherError | DisabledByPolicy, DisabledByPolicy
  | NotSupported, NotSupported | DisabledByUser, DisabledByUser
  | ConsentRequired, ConsentRequired
  | TransportNotSupported, TransportNotSupported => true
  | _, _ => false
  end.

(** [GattCharacteristicProperties]: a flags enumeration. *)
Module GattCharacteristicProperties.
Definition None : N := 0x000.
Definition Broadcast : N := 0x001.
Definition Read : N := 0x002.
Definition WriteWithoutResponse : N := 0x004.
Definition Write : N := 0x008.
Definition Notify : N := 0x010.
Definition Indicate : N := 0x020.
Definition AuthenticatedSignedWrites : N := 0x040.
Definition ExtendedProperties : N := 0x080.
Definition ReliableWrites : N := 0x100.
Definition WritableAuxiliaries : N := 0x200.
Definition has (flag props : N) : bool := negb (N.land props flag =? 0).
End GattCharacteristicProperties.

Inductive GattProtectionLevel :=
| Plain | AuthenticationRequired | EncryptionRequired
| EncryptionAndAuthenticationRequired.

Record GattLocalCharacteristicParameters := mk_char_params
  { CharacteristicProperties : N;
    ReadProtectionLevel : GattProtectionLevel;
    WriteProtectionLevel : GattProtectionLevel;
    UserDescription : string }.

(** A default-constructed [GattLocalCharacteristicParameters]. *)
Definition new_char_params : GattLocalCharacteristicParameters :=
  mk_char_params GattCharacteristicProperties.None Plain Plain "".

Definition set_CharacteristicProperties v p :=
  mk_char_params v (ReadProtectionLevel p) (WriteProtectionLevel p) (UserDescription p).
Definition set_WriteProtectionLevel v p :=
  mk_char_params (CharacteristicProperties p) (ReadProtectionLevel p) v (UserDescription p).
Definition set_UserDescription v p :=
  mk_char_params (CharacteristicProperties p) (ReadProtectionLevel p)
                 (WriteProtectionLevel p) v.

Record GattServiceProviderAdvertisingParameters := mk_adv_params
  { IsConnectable : bool; IsDiscoverable : bool }.

Definition new_adv_params := mk_adv_params false false.
Definition set_IsConnectable v p := mk_adv_params v (IsDiscoverable p).
Definition set_IsDiscoverable v p := mk_adv_params (IsConnectable p) v.

(** A [GattServiceProvider] and a [GattLocalCharacteristic] are references
    to objects of the Bluetooth stack. *)
Definition GattServiceProvider := nat.

Record GattLocalCharacteristic := mk_characteristic
  { ch_service : GattServiceProvider;
    ch_uuid : Guid.guid;
    ch_params : GattLocalCharacteristicParameters }.

End Gatt.

(* ===================================================================== *)
(** ** [DataReader] and the read loop of the handler                     *)
(* ===================================================================== *)

Module Streams.

Definition byte := Byte.byte.

Record DataReader := mk_reader
  { rd_buffer : list byte; rd_position : nat }.

Definition FromBuffer (buffer : list byte) : DataReader := mk_reader buffer 0.

Definition UnconsumedBufferLength (r : DataReader) : nat :=
  (List.length (rd_buffer r) - rd_position r)%nat.

(** [ReadByte]: the next byte and the advanced reader; [None] where the
    platform raises because nothing is left. *)
Definition ReadByte (r : DataReader) : option (byte * DataReader) :=
  match nth_error (rd_buffer r) (rd_position r) with
  | Some b => Some (b, mk_reader (rd_buffer r) (S (rd_position r)))
  | None => None
  end.

(** Lines 78-81:
    [while (reader.UnconsumedBufferLength() > 0) data.push_back(reader.ReadByte());] *)
Equations? read_loop (reader : DataReader) (data : list byte)
  : list byte * DataReader by wf (UnconsumedBufferLength reader) lt :=
  read_loop reader data with inspect (0 <? UnconsumedBufferLength reader)%nat := {
    | exist _ false _ := (data, reader);
    | exist _ true _ with inspect (ReadByte reader) := {
        | exist _ (Some (b, reader')) _ := read_loop reader' (data ++ [b]);
        | exist _ None _ := (data, reader) } }.
Proof.
  match goal with E : ReadByte _ = Some _ |- _ => revert E end.
  unfold ReadByte, UnconsumedBufferLength.
  destruct (nth_error (rd_buffer reader) (rd_position reader)) eqn:E;
    [|discriminate].
  intros H; inversion H; subst; simpl.
  assert (rd_position reader < List.length (rd_buffer reader))%nat
    by (apply nth_error_Some; congruence).
  lia.
Qed.

End Streams.

Import Gatt Streams.

(* ===================================================================== *)
(** ** The server: globals, control surface, background thread, handler   *)
(* ===================================================================== *)

Module Server.

(** [DataCallback]: a C function pointer; [None] is [nullptr]. *)
Definition DataCallback := option nat.

Definition nl : string := String (ascii_of_nat 10) EmptyString.
Definition line (s : string) : string := String.append s nl.

(** What the program does to the outside, in the order it does it. *)
Inductive Event :=
| thread_started (service_uuid characteristic_uuid : string)
| thread_joined
| init_apartment
| OutputDebugString (msg : string)
| CreateAsync (service_guid : guid) (error : BluetoothError)
| CreateCharacteristicAsync (service : GattServiceProvider) (char_guid : guid)
    (charParams : GattLocalCharacteristicParameters) (error : BluetoothError)
| WriteRequested_subscribed (characteristic : GattLocalCharacteristic)
| StartAdvertising (service : GattServiceProvider)
    (advParams : GattServiceProviderAdvertisingParameters)
| StopAdvertising (service : GattServiceProvider)
| sleep_for (milliseconds : Z)
| GetDeferral
| GetRequestAsync
| callback_called (callback : nat) (data : list byte) (len : nat)
| Respond
| deferral_Complete.

(** Where the lambda run by [ble_thread] stands, with the locals that are
    live there.  The constructor names give the source line about to be
    executed. *)
Inductive Location :=
| L45_init_apartment
| L48_parse_service
| L49_parse_characteristic (service_guid : guid)
| L51_CreateAsync (service_guid char_guid : guid)
| L59_CreateCharacteristicAsync (char_guid : guid)
| L72_WriteRequested (characteristic : GattLocalCharacteristic)
| L90_StartAdvertising
| L97_while_running
| L101_StopAdvertising
| L108_returned.

(** A [std::thread]: empty, or a thread of execution running the lambda
    with its captures (by value) until it is joined. *)
Inductive std_thread :=
| not_a_thread
| thread_of (service_uuid characteristic_uuid : string) (at_ : Location).

Definition joinable (t : std_thread) : bool :=
  match t with not_a_thread => false | thread_of _ _ _ => true end.

(** The objects the Bluetooth stack holds for this process. *)
Record BluetoothStack := mk_stack
  { next_provider : nat;
    services : list GattServiceProvider;
    characteristics : list GattLocalCharacteristic;
    write_handlers : list GattLocalCharacteristic;
    advertising : list GattServiceProvider }.

Definition not_of (p : GattServiceProvider) (c : GattLocalCharacteristic) : bool :=
  negb (Nat.eqb (ch_service c) p).

(** Dropping the last reference to a provider removes its service. *)
Definition release (p : GattServiceProvider) (os : BluetoothStack) : BluetoothStack :=
  mk_stack (next_provider os)
           (filter (fun q => negb (Nat.eqb q p)) (services os))
           (filter (not_of p) (characteristics os))
           (filter (not_of p) (write_handlers os))
           (filter (fun q => negb (Nat.eqb q p)) (advertising os)).

Definition release_opt (p : option GattServiceProvider) os :=
  match p with Some q => release q os | None => os end.

(** Where the controlling thread stands: outside the two entry points, or
    inside [stop_ble_server] before or after the join. *)
Inductive Control := Idle | Stop_L116_join | Stop_L119_clear.

Record World := mk_world
  { running : bool;                                 (* line 21 *)
    g_service_provider : option GattServiceProvider; (* line 22 *)
    g_callback : DataCallback;                      (* line 26 *)
    ble_thread : std_thread;                        (* line 20 *)
    control : Control;
    alive : bool;          (* false once the process has been terminated *)
    stack : BluetoothStack;
    trace : list Event }.

Definition initial : World :=
  mk_world false None None not_a_thread Idle true (mk_stack 0 [] [] [] []) [].

Definition set_running v w :=
  mk_world v (g_service_provider w) (g_callback w) (ble_thread w) (control w)
           (alive w) (stack w) (trace w).
Definition set_g_service_provider v w :=
  mk_world (running w) v (g_callback w) (ble_thread w) (control w)
           (alive w) (stack w) (trace w).
Definition set_g_callback v w :=
  mk_world (running w) (g_service_provider w) v (ble_thread w) (control w)
           (alive w) (stack w) (trace w).
Definition set_ble_thread v w :=
  mk_world (running w) (g_service_provider w) (g_callback w) v (control w)
           (alive w) (stack w) (trace w).
Definition set_control v w :=
  mk_world (running w) (g_service_provider w) (g_callback w) (ble_thread w) v
           (alive w) (stack w) (trace w).
Definition terminate w :=
  mk_world (running w) (g_service_provider w) (g_callback w) (ble_thread w)
           (control w) false (stack w) (trace w).
Definition set_stack v w :=
  mk_world (running w) (g_service_provider w) (g_callback w) (ble_thread w)
           (control w) (alive w) v (trace w).
Definition emit (e : Event) w :=
  mk_world (running w) (g_service_provider w) (g_callback w) (ble_thread w)
           (control w) (alive w) (stack w) (trace w ++ [e]).

(** *** The [WriteRequested] handler, lines 72-88 *)
Definition WriteRequested_handler (value : list byte) (w : World) : World :=
  let w := emit GetDeferral w in
  let w := emit GetRequestAsync w in
  let buffer := value in
  let reader := FromBuffer buffer in
  let '(data, _) := read_loop reader [] in
  let w :=
    match g_callback w with
    | Some callback => emit (callback_called callback data (List.length data)) w
    | None => w
    end in
  let w := emit Respond w in
  emit deferral_Complete w.

(** *** [start_ble_server], lines 36-44

    Assigning to a [std::thread] that is still joinable terminates the
    process. *)
Definition start_ble_server (name service_uuid characteristic_uuid : string)
    (callback : DataCallback) (w : World) : World :=
  if running w then w
  else
    let w := set_running true w in
    let w := set_g_callback callback w in
    if joinable (ble_thread w) then terminate w
    else
      emit (thread_started service_uuid characteristic_uuid)
           (set_ble_thread
              (thread_of service_uuid characteristic_uuid L45_init_apartment) w).

(** *** [stop_ble_server], lines 112-120, in its three blocks *)

(** Lines 113-114. *)
Definition stop_enter (w : World) : World :=
  if negb (running w) then w
  else set_control Stop_L116_join (set_running false w).

(** Lines 116-118: [join] returns once the thread's function has
    returned; until then the caller is blocked ([None]). *)
Definition stop_join (w : World) : option World :=
  match ble_thread w with
  | not_a_thread => Some (set_control Stop_L119_clear w)
  | thread_of _ _ L108_returned =>
      Some (set_control Stop_L119_clear
              (emit thread_joined (set_ble_thread not_a_thread w)))
  | thread_of _ _ _ => None
  end.

(** Line 119 and the return. *)
Definition stop_clear (w : World) : World :=
  set_control Idle (set_g_callback None w).

(** *** The lambda of [ble_thread], lines 44-108, one block at a time

    [reply] is the error code the stack reports to the block when the block
    is a creation request. *)
Definition charParams : GattLocalCharacteristicParameters :=
  set_UserDescription "Command Receiver"
    (set_WriteProtectionLevel Plain
       (set_CharacteristicProperties GattCharacteristicProperties.Write
          new_char_params)).

Definition advParams : GattServiceProviderAdvertisingParameters :=
  set_IsDiscoverable true (set_IsConnectable true new_adv_params).

Definition catch_exception (e : std_exception) (w : World) : World :=
  emit (OutputDebugString (line (String.append "Exception: " (what e)))) w.

Definition thread_block (reply : BluetoothError) (service_uuid characteristic_uuid : string)
    (pc : Location) (w : World) : option (Location * World) :=
  match pc with
  | L45_init_apartment => Some (L48_parse_service, emit init_apartment w)
  | L48_parse_service =>
      match parse_guid service_uuid with
      | inl service_guid => Some (L49_parse_characteristic service_guid, w)
      | inr e => Some (L108_returned, catch_exception e w)
      end
  | L49_parse_characteristic service_guid =>
      match parse_guid characteristic_uuid with
      | inl char_guid => Some (L51_CreateAsync service_guid char_guid, w)
      | inr e => Some (L108_returned, catch_exception e w)
      end
  | L51_CreateAsync service_guid char_guid =>
      let w := emit (CreateAsync service_guid reply) w in
      if negb (BluetoothError_eqb reply Success) then
        Some (L108_returned,
              emit (OutputDebugString (line "Failed to create GATT service")) w)
      else
        let os := stack w in
        let provider := next_provider os in
        let os := mk_stack (S provider) (provider :: services os)
                           (characteristics os) (write_handlers os) (advertising os) in
        let os := release_opt (g_service_provider w) os in
        Some (L59_CreateCharacteristicAsync char_guid,
              set_g_service_provider (Some provider) (set_stack os w))
  | L59_CreateCharacteristicAsync char_guid =>
      match g_service_provider w with
      | None => Some (L108_returned, terminate w)
      | Some provider =>
          let w := emit (CreateCharacteristicAsync provider char_guid charParams reply) w in
          if negb (BluetoothError_eqb reply Success) then
            Some (L108_returned,
                  emit (OutputDebugString (line "Failed to create characteristic")) w)
          else
            let characteristic := mk_characteristic provider char_guid charParams in
            let os := stack w in
            let os := mk_stack (next_provider os) (services os)
                               (characteristic :: characteristics os)
                               (write_handlers os) (advertising os) in
            Some (L72_WriteRequested characteristic, set_stack os w)
      end
  | L72_WriteRequested characteristic =>
      let os := stack w in
      let os := mk_stack (next_provider os) (services os) (characteristics os)
                         (characteristic :: write_handlers os) (advertising os) in
      Some (L90_StartAdvertising,
            emit (WriteRequested_subscribed characteristic) (set_stack os w))
  | L90_StartAdvertising =>
      match g_service_provider w with
      | None => Some (L108_returned, terminate w)
      | Some provider =>
          let os := stack w in
          let os := mk_stack (next_provider os) (services os) (characteristics os)
                             (write_handlers os) (provider :: advertising os) in
          let w := emit (StartAdvertising provider advParams) (set_stack os w) in
          Some (L97_while_running,
                emit (OutputDebugString (line "BLE GATT server started")) w)
      end
  | L97_while_running =>
      if running w then Some (L97_while_running, emit (sleep_for 200) w)
      else Some (L101_StopAdvertising, w)
  | L101_StopAdvertising =>
      match g_service_provider w with
      | None => Some (L108_returned, terminate w)
      | Some provider =>
          let os := stack w in
          let os := mk_stack (next_provider os) (services os) (characteristics os)
                             (write_handlers os)
                             (filter (fun q => negb (Nat.eqb q provider)) (advertising os)) in
          let w := emit (StopAdvertising provider) (set_stack os w) in
          let w := set_g_service_provider None (set_stack (release provider (stack w)) w) in
          Some (L108_returned,
                emit (OutputDebugString (line "BLE GATT server stopped")) w)
      end
  | L108_returned => None
  end.

Definition thread_step (reply : BluetoothError) (w : World) : option World :=
  match ble_thread w with
  | not_a_thread => None
  | thread_of service_uuid characteristic_uuid pc =>
      match thread_block reply service_uuid characteristic_uuid pc w with
      | Some (pc', w') =>
          Some (set_ble_thread (thread_of service_uuid characteristic_uuid pc') w')
      | None => None
      end
  end.

(** *** The system: who may move, and what the move does *)
Inductive Label :=
| call_start (name service_uuid characteristic_uuid : string) (callback : DataCallback)
| call_stop
| join_returns
| stop_returns
| background (reply : BluetoothError)
| peer_write (value : list byte).

(** A write request is delivered while a characteristic with a subscribed
    handler exists. *)
Definition write_deliverable (w : World) : bool :=
  match write_handlers (stack w) with [] => false | _ :: _ => true end.

Definition step (l : Label) (w : World) : option World :=
  if negb (alive w) then None
  else
    match l with
    | call_start name service_uuid characteristic_uuid callback =>
        match control w with
        | Idle =>
            Some (start_ble_server name service_uuid characteristic_uuid callback w)
        | _ => None
        end
    | call_stop =>
        match control w with Idle => Some (stop_enter w) | _ => None end
    | join_returns =>
        match control w with Stop_L116_join => stop_join w | _ => None end
    | stop_returns =>
        match control w with Stop_L119_clear => Some (stop_clear w) | _ => None end
    | background reply => thread_step reply w
    | peer_write value =>
        if write_deliverable w then Some (WriteRequested_handler value w) else None
    end.

Fixpoint run (ls : list Label) (w : World) : option World :=
  match ls with
  | [] => Some w
  | l :: ls' => match step l w with Some w' => run ls' w' | None => None end
  end.

(** The sink invocations of a trace, and the events a run has added. *)
Definition is_sink_call (e : Event) : bool :=
  match e with callback_called _ _ _ => true | _ => false end.

Definition sink_calls (tr : list Event) : list Event := filter is_sink_call tr.

Definition events_since (w w' : World) : list Event :=
  skipn (List.length (trace w)) (trace w').

Inductive reachable : World -> Prop :=
| reachable_initial : reachable initial
| reachable_step l w w' : reachable w -> step l w = Some w' -> reachable w'.

End Server.

Import Server.

(* ===================================================================== *)
(** ** Predicates, invariants and example worlds                          *)
(* ===================================================================== *)

(** A non-NUL ASCII unit. *)
Definition low (u : N) : bool := (0 <? u) && (u <? 0x80).

(** Nothing of this process is exposed by the stack. *)
Definition nothing_active (w : World) : Prop :=
  characteristics (stack w) = [] /\ write_handlers (stack w) = []
  /\ advertising (stack w) = [].

(** What the stack holds, by the place the background thread has reached. *)
Definition thread_inv (w : World) : Prop :=
  match ble_thread w with
  | not_a_thread => nothing_active w
  | thread_of _ _ pc =>
      match pc with
      | L59_CreateCharacteristicAsync _ =>
          nothing_active w /\ g_service_provider w <> None
      | L72_WriteRequested ch =>
          g_service_provider w = Some (ch_service ch)
          /\ characteristics (stack w) = [ch]
          /\ write_handlers (stack w) = [] /\ advertising (stack w) = []
      | L90_StartAdvertising =>
          exists ch, g_service_provider w = Some (ch_service ch)
          /\ characteristics (stack w) = [ch]
          /\ write_handlers (stack w) = [ch] /\ advertising (stack w) = []
      | L97_while_running | L101_StopAdvertising =>
          exists ch, g_service_provider w = Some (ch_service ch)
          /\ characteristics (stack w) = [ch]
          /\ write_handlers (stack w) = [ch]
          /\ advertising (stack w) = [ch_service ch]
      | _ => nothing_active w
      end
  end.

(** The flag and the thread object, by the place the controlling thread
    has reached. *)
Definition control_inv (w : World) : Prop :=
  match control w with
  | Idle => running w = false -> ble_thread w = not_a_thread
  | Stop_L116_join => running w = false
  | Stop_L119_clear => running w = false /\ ble_thread w = not_a_thread
  end.

(** The only service alive is the one the global handle refers to. *)
Definition services_inv (w : World) : Prop :=
  match g_service_provider w with
  | Some p => services (stack w) = [p] /\ (p < next_provider (stack w))%nat
  | None => services (stack w) = []
  end.

Definition invariant (w : World) : Prop :=
  alive w = true /\ thread_inv w /\ control_inv w /\ services_inv w.

Definition demo_service : string := "0000ffe0-0000-1000-8000-00805f9b34fb".
Definition demo_characteristic : string := "0000ffe1-0000-1000-8000-00805f9b34fb".

(** [start] followed by a setup in which the stack accepts both requests:
    the thread is left polling at line 97. *)
Definition serving_labels (callback : DataCallback) : list Label :=
  call_start "presenterd" demo_service demo_characteristic callback
    :: repeat (background Success) 7.

Definition world_after (ls : list Label) : World :=
  match run ls initial with Some w => w | None => initial end.

Definition serving_world : World :=
  Eval vm_compute in world_after (serving_labels (Some 1%nat)).

Definition unsunk_world : World :=
  Eval vm_compute in world_after (serving_labels None).

Definition requests_charParams (e : Event) : Prop :=
  match e with
  | CreateCharacteristicAsync _ _ params _ => params = charParams
  | _ => True
  end.

Definition params_inv (w : World) : Prop :=
  Forall requests_charParams (trace w)
  /\ Forall (fun ch => ch_params ch = charParams) (characteristics (stack w)).

Definition is_call_start (l : Label) : bool :=
  match l with call_start _ _ _ _ => true | _ => false end.

Definition is_call_stop (l : Label) : bool :=
  match l with call_stop => true | _ => false end.

Definition is_stop_returns (l : Label) : bool :=
  match l with stop_returns => true | _ => false end.

Definition is_join_returns (l : Label) : bool :=
  match l with join_returns => true | _ => false end.

Definition is_background (l : Label) : bool :=
  match l with background _ => true | _ => false end.

(** The thread's function has returned (or there is no thread). *)
Definition has_returned (t : std_thread) : bool :=
  match t with
  | not_a_thread => true
  | thread_of _ _ L108_returned => true
  | thread_of _ _ _ => false
  end.

(** Inside [stop_ble_server], between the clearing of the flag and the
    clearing of the sink. *)
Definition in_stop (sink : DataCallback) (w : World) : Prop :=
  running w = false /\ g_callback w = sink
  /\ (control w = Stop_L116_join
      \/ (control w = Stop_L119_clear /\ ble_thread w = not_a_thread)).

Definition at_creation (pc : Location) : bool :=
  match pc with
  | L51_CreateAsync _ _ | L59_CreateCharacteristicAsync _ => true
  | _ => false
  end.

(** The request of the block at [pc] with the error it gets, and the
    diagnostic that follows. *)
Definition creation_failure_events (pc : Location) (w : World)
    (reply : BluetoothError) : list Event :=
  match pc, g_service_provider w with
  | L51_CreateAsync service_guid _, _ =>
      [CreateAsync service_guid reply;
       OutputDebugString (line "Failed to create GATT service")]
  | L59_CreateCharacteristicAsync char_guid, Some provider =>
      [CreateCharacteristicAsync provider char_guid charParams reply;
       OutputDebugString (line "Failed to create characteristic")]
  | _, _ => []
  end.

(** After a failed setup: the flag is set, the thread's function has
    returned, and the thread has not been joined. *)
Definition dangling (su cu : string) (w : World) : Prop :=
  reachable w /\ running w = true /\ ble_thread w = thread_of su cu L108_returned.

(** The stack has accepted the service; the characteristic request is
    about to be made. *)
Definition requesting_characteristic_world : World :=
  Eval vm_compute in
    world_after (call_start "presenterd" demo_service demo_characteristic (Some 1%nat)
                   :: repeat (background Success) 4).

(** The places of a thread that cannot get past the parsing of its
    identifiers. *)
Definition aborting (cu : string) (pc : Location) : Prop :=
  match pc with
  | L45_init_apartment | L48_parse_service | L108_returned => True
  | L49_parse_characteristic _ => well_formed_uuid cu = false
  | _ => False
  end.

(** Requests to the stack, the start of advertising, and sink calls. *)
Definition is_setup_or_sink (e : Event) : bool :=
  match e with
  | CreateAsync _ _ | CreateCharacteristicAsync _ _ _ _
  | WriteRequested_subscribed _ | StartAdvertising _ _
  | callback_called _ _ _ => true
  | _ => false
  end.

Definition aborted_setup (su cu : string) (w0 w : World) : Prop :=
  reachable w
  /\ (exists pc, ble_thread w = thread_of su cu pc /\ aborting cu pc)
  /\ exists new, trace w = trace w0 ++ new
                 /\ Forall (fun e => is_setup_or_sink e = false) new.

Definition started_on_text_world : World :=
  Eval vm_compute in
    world_after [call_start "presenterd" "not-a-uuid" demo_characteristic (Some 1%nat)].

(** One use of the server in which the stack accepts both requests:
    [start], the setup up to the polling loop, [stop], the teardown, the
    join and the return of [stop]. *)
Definition session (name su cu : string) (callback : DataCallback) : list Label :=
  call_start name su cu callback
    :: repeat (background Success) 7
    ++ [call_stop; background Success; background Success; join_returns; stop_returns].

(** The idle state: as [initial], up to the handles already given out and
    the events already recorded. *)
Definition idle_world (next : nat) (tr : list Event) : World :=
  mk_world false None None not_a_thread Idle true (mk_stack next [] [] [] []) tr.

Definition is_thread_started (e : Event) : bool :=
  match e with thread_started _ _ => true | _ => false end.

Definition is_characteristic_created (e : Event) : bool :=
  match e with CreateCharacteristicAsync _ _ _ Success => true | _ => false end.

(** What one session records, for the identifiers' GUIDs and the handle the
    stack gives out. *)
Definition session_events (su cu : string) (service_guid char_guid : guid)
    (provider : GattServiceProvider) : list Event :=
  [thread_started su cu;
   init_apartment;
   CreateAsync service_guid Success;
   CreateCharacteristicAsync provider char_guid charParams Success;
   WriteRequested_subscribed (mk_characteristic provider char_guid charParams);
   StartAdvertising provider advParams;
   OutputDebugString (line "BLE GATT server started");
   StopAdvertising provider;
   OutputDebugString (line "BLE GATT server stopped");
   thread_joined].

(** The blocks the lambda still has before it, at most, once the flag is
    clear. *)
Definition steps_left (pc : Location) : nat :=
  match pc with
  | L45_init_apartment => 9
  | L48_parse_service => 8
  | L49_parse_characteristic _ => 7
  | L51_CreateAsync _ _ => 6
  | L59_CreateCharacteristicAsync _ => 5
  | L72_WriteRequested _ => 4
  | L90_StartAdvertising => 3
  | L97_while_running => 2
  | L101_StopAdvertising => 1
  | L108_returned => 0
  end%nat.

Definition count_events (f : Event -> bool) (tr : list Event) : nat :=
  List.length (filter f tr).

Definition is_thread_joined (e : Event) : bool :=
  match e with thread_joined => true | _ => false end.

Definition is_StartAdvertising (e : Event) : bool :=
  match e with StartAdvertising _ _ => true | _ => false end.

Definition is_StopAdvertising (e : Event) : bool :=
  match e with StopAdvertising _ => true | _ => false end.





(** The events the lambda records itself. *)
Definition is_lambda_event (e : Event) : bool :=
  match e with
  | init_apartment | OutputDebugString _ | CreateAsync _ _
  | CreateCharacteristicAsync _ _ _ _ | WriteRequested_subscribed _
  | StartAdvertising _ _ | StopAdvertising _ | sleep_for _ => true
  | _ => false
  end.

(** The events of one run of the handler on [value] in world [w]. *)
Definition handler_events (value : list byte) (w : World) : list Event :=
  [GetDeferral; GetRequestAsync]
    ++ match g_callback w with
       | Some callback => [callback_called callback value (List.length value)]
       | None => []
       end
    ++ [Respond; deferral_Complete].

(** What a step adds to the trace, by its label. *)
Definition step_adds (l : Label) (w : World) (new : list Event) : Prop :=
  match l with
  | call_start _ su cu _ => new = [] \/ new = [thread_started su cu]
  | call_stop | stop_returns => new = []
  | join_returns => new = [] \/ new = [thread_joined]
  | background _ => Forall (fun e => is_lambda_event e = true) new
  | peer_write value => new = handler_events value w
  end.

Definition advertises_openly (e : Event) : Prop :=
  match e with
  | StartAdvertising _ p => IsConnectable p = true /\ IsDiscoverable p = true
  | _ => True
  end.

(** Threads started and joined, advertisements started and stopped, the
    flag against the thread object, the sink outside a run. *)
Definition accounting (w : World) : Prop :=
  count_events is_thread_started (trace w)
    = (count_events is_thread_joined (trace w)
       + if joinable (ble_thread w) then 1 else 0)%nat
  /\ count_events is_StartAdvertising (trace w)
     = (count_events is_StopAdvertising (trace w)
        + List.length (advertising (stack w)))%nat
  /\ (running w = true -> joinable (ble_thread w) = true)
  /\ (control w = Idle -> running w = false -> g_callback w = None)
  /\ Forall advertises_openly (trace w).

(** A run in progress with [sink] stored: [start] would return at once. *)
Definition holds_sink (sink : DataCallback) (w : World) : Prop :=
  g_callback w = sink /\ (running w = true \/ control w <> Idle).

(** A service kept by the global handle with no thread left to release
    it. *)
Definition leaked (p : GattServiceProvider) (w : World) : Prop :=
  reachable w /\ g_service_provider w = Some p
  /\ has_returned (ble_thread w) = true.

(** The same call with another display name. *)
Definition rename_start (f : string -> string) (l : Label) : Label :=
  match l with
  | call_start name su cu callback => call_start (f name) su cu callback
  | _ => l
  end.

(** [stop] has cleared the flag and the lambda has left its loop. *)
Definition tearing_down_world : World :=
  Eval vm_compute in
    world_after (serving_labels (Some 1%nat) ++ [call_stop; background Success]).

Definition is_characteristic_request (e : Event) : bool :=
  match e with CreateCharacteristicAsync _ _ _ _ => true | _ => false end.

(* ===================================================================== *)
(** ** The handler, interleaved                                           *)
(* ===================================================================== *)

(** The handler runs on the platform's callback context, with nothing to
    order lines 82-83 against line 119.  Here it is cut where that matters:
    lines 73-82, up to the test of [g_callback], and lines 83-87, from the
    call on.  A [Flight] is a handler between the two: the bytes it has read
    and the pointer its test has seen. *)
Record Flight := mk_flight
  { fl_data : list byte; fl_tested : DataCallback }.

(** Lines 73-82. *)
Definition handler_tests_sink (value : list byte) (w : World) : World * Flight :=
  let w := emit GetDeferral w in
  let w := emit GetRequestAsync w in
  let buffer := value in
  let reader := FromBuffer buffer in
  let '(data, _) := read_loop reader [] in
  (w, mk_flight data (g_callback w)).

(** Lines 83-87.  Where the test has failed the call is skipped.  Where it
    has passed, the call goes to the pointer the test has seen (one load,
    kept in a register) or to [g_callback] read again ([reread]); a call
    through a pointer that has become null ends the process. *)
Definition handler_calls_sink (reread : bool) (fl : Flight) (w : World) : World :=
  match fl_tested fl with
  | None => emit deferral_Complete (emit Respond w)
  | Some tested =>
      match (if reread then g_callback w else Some tested) with
      | Some callback =>
          emit deferral_Complete
            (emit Respond
               (emit (callback_called callback (fl_data fl)
                        (List.length (fl_data fl))) w))
      | None => terminate w
      end
  end.

(** The world together with the handlers in flight. *)
Record Interleaved := mk_interleaved
  { coarse : World; in_flight : list Flight }.

Inductive Move :=
| atomic (l : Label)
| handler_tests (value : list byte)
| handler_calls (i : nat) (reread : bool).

Fixpoint remove_nth {A : Type} (i : nat) (l : list A) : list A :=
  match l, i with
  | [], _ => []
  | _ :: t, O => t
  | x :: t, S j => x :: remove_nth j t
  end.

Definition move (m : Move) (s : Interleaved) : option Interleaved :=
  match m with
  | atomic l =>
      match step l (coarse s) with
      | Some w' => Some (mk_interleaved w' (in_flight s))
      | None => None
      end
  | handler_tests value =>
      if alive (coarse s) && write_deliverable (coarse s) then
        let '(w', fl) := handler_tests_sink value (coarse s) in
        Some (mk_interleaved w' (in_flight s ++ [fl]))
      else None
  | handler_calls i reread =>
      if alive (coarse s) then
        match nth_error (in_flight s) i with
        | Some fl =>
            Some (mk_interleaved (handler_calls_sink reread fl (coarse s))
                                 (remove_nth i (in_flight s)))
        | None => None
        end
      else None
  end.

Fixpoint moves (ms : list Move) (s : Interleaved) : option Interleaved :=
  match ms with
  | [] => Some s
  | m :: ms' => match move m s with Some s' => moves ms' s' | None => None end
  end.

Definition is_return_move (m : Move) : bool :=
  match m with atomic stop_returns => true | _ => false end.

Definition is_start_move (m : Move) : bool :=
  match m with atomic (call_start _ _ _ _) => true | _ => false end.

(** After [stop] has returned with the handlers [flights] in flight: no
    sink is stored, and a handler whose test has passed is one of
    [flights]. *)
Definition after_return (flights : list Flight) (s : Interleaved) : Prop :=
  g_callback (coarse s) = None
  /\ forall fl, In fl (in_flight s) -> fl_tested fl <> None -> In fl flights.

(** A sink call made by one of [flights], with what it had read. *)
Definition call_of_flight (flights : list Flight) (e : Event) : Prop :=
  exists fl callback,
    In fl flights /\ fl_tested fl = Some callback
    /\ e = callback_called callback (fl_data fl) (List.length (fl_data fl)).

(** A write request is being handled, past the test, while [stop] is
    called, runs and returns; the handler then goes on. *)
Definition straggler_moves : list Move :=
  map atomic (serving_labels (Some 1%nat))
    ++ [handler_tests [Byte.x01]]
    ++ map atomic [call_stop; background Success; background Success;
                   join_returns; stop_returns].

Definition initially : Interleaved := mk_interleaved initial [].

Definition after_moves (ms : list Move) : Interleaved :=
  match moves ms initially with Some s => s | None => initially end.

Definition stopped_with_straggler : Interleaved :=
  Eval vm_compute in after_moves straggler_moves.

(* ===================================================================== *)
(** ** Facts about the text conversion                                    *)
(* ===================================================================== *)

Lemma until_nul_nonzero s : Forall (fun c => c <> 0) (until_nul s).
Proof.
  induction s as [|c t IH]; simpl; [constructor|].
  destruct (N.eqb_spec c 0); [constructor|]. constructor; assumption.
Qed.

Lemma until_nul_fixed s : Forall (fun c => c <> 0) s -> until_nul s = s.
Proof.
  induction 1 as [|c t Hc _ IH]; simpl; [reflexivity|].
  destruct (N.eqb_spec c 0); [contradiction|]. now rewrite IH.
Qed.

Lemma until_nul_app_cons a u r :
  Forall (fun c => c <> 0) a -> u <> 0 ->
  until_nul (a ++ u :: r) = a ++ u :: until_nul r.
Proof.
  induction 1 as [|c t Hc _ IH]; simpl; intros Hu.
  - destruct (N.eqb_spec u 0); [contradiction|reflexivity].
  - destruct (N.eqb_spec c 0); [contradiction|]. now rewrite IH.
Qed.

Lemma low_nonzero l : forallb low l = true -> Forall (fun c => c <> 0) l.
Proof.
  induction l as [|c t IH]; simpl; [constructor|].
  intros H. apply andb_prop in H as [Hc Ht]. constructor; [|auto].
  unfold low in Hc. apply andb_prop in Hc as [Hc _].
  apply N.ltb_lt in Hc. lia.
Qed.

(** ASCII bytes are converted one to one. *)
Lemma utf8_decode_low a r :
  forallb low a = true -> utf8_decode (a ++ r) = a ++ utf8_decode r.
Proof.
  unfold utf8_decode. induction a as [|c t IH]; simpl; [reflexivity|].
  intros H. apply andb_prop in H as [Hc Ht].
  unfold low in Hc. apply andb_prop in Hc as [_ Hc].
  unfold lead_byte. rewrite Hc. simpl. now rewrite IH.
Qed.

Lemma utf16_units_high cp :
  exists u rest, utf16_units cp = u :: rest /\ 0x80 <= u.
Proof.
  unfold utf16_units, REPLACEMENT.
  destruct (N.ltb_spec cp 0x80); [eexists _, _; split; [reflexivity|lia]|].
  destruct (N.ltb_spec cp 0x10000); [eexists _, _; split; [reflexivity|lia]|].
  destruct (N.ltb_spec cp 0x110000); eexists _, _; (split; [reflexivity|lia]).
Qed.

(** A started sequence never yields an ASCII unit first. *)
Lemma utf8_pending_high s : forall p,
  exists u rest, utf8_decode_from (Some p) s = u :: rest /\ 0x80 <= u.
Proof.
  induction s as [|b t IH]; intros [acc need]; simpl.
  - eexists _, _; split; [reflexivity|unfold REPLACEMENT; lia].
  - destruct (is_continuation b).
    + destruct need as [|[|n]]; try apply IH.
      * destruct (utf16_units_high (N.lor (N.shiftl acc 6) (N.land b 63)))
          as (u & rest & -> & Hu).
        eexists _, _; split; [reflexivity|exact Hu].
      * destruct (utf16_units_high (N.lor (N.shiftl acc 6) (N.land b 63)))
          as (u & rest & -> & Hu).
        eexists _, _; split; [reflexivity|exact Hu].
    + destruct (lead_byte b) as [out p].
      eexists _, _; split; [reflexivity|unfold REPLACEMENT; lia].
Qed.

Lemma utf8_decode_high b r :
  0x80 <= b -> exists u rest, utf8_decode (b :: r) = u :: rest /\ 0x80 <= u.
Proof.
  intros Hb. unfold utf8_decode. simpl. unfold lead_byte.
  destruct (N.ltb_spec b 0x80); [lia|].
  repeat match goal with
  | |- context [if ?c then _ else _] => destruct c
  end; simpl;
    try apply utf8_pending_high;
    eexists _, _; (split; [reflexivity|unfold REPLACEMENT; lia]).
Qed.

(** A C string is ASCII throughout, or has a first byte that is not. *)
Lemma split_at_high l :
  Forall (fun c => c <> 0) l ->
  forallb low l = true \/
  exists a b r, l = a ++ b :: r /\ forallb low a = true /\ 0x80 <= b.
Proof.
  induction 1 as [|c t Hc _ IH]; [left; reflexivity|].
  destruct (N.ltb_spec c 0x80) as [Hlt|Hge].
  - assert (Hlow : low c = true).
    { unfold low. apply andb_true_intro. split;
        [apply N.ltb_lt; lia | apply N.ltb_lt; lia]. }
    destruct IH as [IH|(a & b & r & -> & Ha & Hb)].
    + left. simpl. now rewrite Hlow, IH.
    + right. exists (c :: a), b, r. simpl. rewrite Hlow, Ha. auto.
  - right. exists [], c, t. auto.
Qed.

(* ===================================================================== *)
(** ** Facts about [winrt_guid] and [parse_guid]                          *)
(* ===================================================================== *)

Lemma is_hex_low c : is_hex c = true -> low c = true.
Proof.
  unfold is_hex, hex_to_uint, low.
  destruct (N.leb_spec 48 c), (N.leb_spec c 57), (N.leb_spec 65 c),
    (N.leb_spec c 70), (N.leb_spec 97 c), (N.leb_spec c 102);
    simpl; try discriminate; intros _;
    apply andb_true_intro; split; apply N.ltb_lt; lia.
Qed.

Lemma dash_low c : (c =? dash) = true -> low c = true.
Proof. intros H. apply N.eqb_eq in H. subst. reflexivity. Qed.

Lemma hex_number_hex l : forall acc x,
  hex_number acc l = Some x -> forallb is_hex l = true.
Proof.
  induction l as [|c t IH]; simpl; intros acc x H; [reflexivity|].
  unfold is_hex at 1. destruct (hex_to_uint c); [|discriminate].
  simpl. eapply IH; eassumption.
Qed.

Lemma hex_number_some l : forall acc,
  forallb is_hex l = true -> exists x, hex_number acc l = Some x.
Proof.
  induction l as [|c t IH]; simpl; intros acc H; [eauto|].
  apply andb_prop in H as [Hc Ht]. unfold is_hex in Hc.
  destruct (hex_to_uint c); [|discriminate]. auto.
Qed.

Lemma hex_octets_hex l :
  (forall x, hex_octets l = Some x -> forallb is_hex l = true) /\
  (forall c x, hex_octets (c :: l) = Some x -> forallb is_hex (c :: l) = true).
Proof.
  induction l as [|d t [IH1 IH2]].
  - split; [reflexivity|]. simpl. discriminate.
  - split; [intros x; apply IH2|].
    intros c x. cbn [hex_octets forallb]. unfold is_hex at 1 2.
    destruct (hex_to_uint c); [|discriminate].
    destruct (hex_to_uint d); [|discriminate].
    destruct (hex_octets t) eqn:E; [|discriminate].
    intros _. simpl. eapply IH1. reflexivity.
Qed.

Lemma hex_octets_some n : forall l,
  List.length l = (2 * n)%nat -> forallb is_hex l = true ->
  exists x, hex_octets l = Some x.
Proof.
  induction n as [|n IH]; intros l Hlen Hhex.
  - destruct l; [simpl; eauto|discriminate].
  - destruct l as [|c [|d t]]; simpl in Hlen; try lia.
    cbn [forallb] in Hhex.
    apply andb_prop in Hhex as [Hc Hhex]. apply andb_prop in Hhex as [Hd Ht].
    destruct (IH t) as [r Hr]; [lia|assumption|].
    cbn [hex_octets]. unfold is_hex in Hc, Hd.
    destruct (hex_to_uint c); [|discriminate].
    destruct (hex_to_uint d); [|discriminate].
    rewrite Hr. eauto.
Qed.

(** [winrt_guid] accepts exactly the well-formed texts. *)
Lemma winrt_guid_accepts v :
  is_guid_text v = true -> exists g, winrt_guid v = inl g.
Proof.
  unfold is_guid_text, winrt_guid. intros H.
  do 5 (apply andb_prop in H as [H ?]).
  rewrite H. cbn [negb].
  destruct (hex_number_some (slice 0 8 v) 0) as [d1 ->]; [assumption|].
  destruct (hex_number_some (slice 9 4 v) 0) as [d2 ->]; [assumption|].
  destruct (hex_number_some (slice 14 4 v) 0) as [d3 ->]; [assumption|].
  destruct (hex_octets_some 8 (slice 19 4 v ++ slice 24 12 v)) as [d4 ->].
  - unfold has_guid_layout in H. repeat (apply andb_prop in H as [H _]).
    apply Nat.eqb_eq in H. unfold slice.
    rewrite length_app, !length_firstn, !length_skipn, H. reflexivity.
  - rewrite forallb_app. apply andb_true_intro; split; assumption.
  - eauto.
Qed.

Lemma winrt_guid_rejects v :
  is_guid_text v = false -> exists e, winrt_guid v = inr e.
Proof.
  unfold winrt_guid. intros H.
  destruct (has_guid_layout v) eqn:Hl; cbn [negb]; [|eauto].
  destruct (hex_number 0 (slice 0 8 v)) eqn:E1; [|eauto].
  destruct (hex_number 0 (slice 9 4 v)) eqn:E2; [|eauto].
  destruct (hex_number 0 (slice 14 4 v)) eqn:E3; [|eauto].
  destruct (hex_octets (slice 19 4 v ++ slice 24 12 v)) eqn:E4; [|eauto].
  exfalso.
  apply hex_number_hex in E1, E2, E3.
  apply (proj1 (hex_octets_hex _)) in E4. rewrite forallb_app in E4.
  apply andb_prop in E4 as [E4 E5].
  unfold is_guid_text in H. rewrite Hl, E1, E2, E3, E4, E5 in H. discriminate.
Qed.

(** A well-formed text is ASCII without NUL. *)
Lemma guid_text_low v : is_guid_text v = true -> forallb low v = true.
Proof.
  unfold is_guid_text, has_guid_layout. intros H.
  do 9 (apply andb_prop in H as [H ?]).
  apply Nat.eqb_eq in H.
  do 36 (destruct v as [|? v]; [discriminate|]).
  destruct v; [|discriminate].
  unfold slice in *. cbn [firstn skipn nth forallb] in *.
  repeat match goal with
  | Hx : (_ && _) = true |- _ => apply andb_prop in Hx as [? ?]
  end.
  repeat match goal with
  | Hx : is_hex ?c = true |- _ => apply is_hex_low in Hx
  | Hx : (?c =? dash) = true |- _ => apply dash_low in Hx
  end.
  repeat match goal with
  | Hx : low ?c = true |- _ => rewrite Hx; clear Hx
  end.
  reflexivity.
Qed.

(** The conversion of [parse_guid], case by case on the buffer size. *)
Lemma parse_guid_conversion_eq s :
  let chars := c_chars s in
  let full := utf8_decode (chars ++ [0]) in
  let n := List.length chars in
  parse_guid_conversion s =
    if Nat.eqb n 0 then (Z.of_nat (List.length full), [])
    else if (List.length full <=? n)%nat then
      (Z.of_nat (List.length full), full ++ skipn (List.length full) (repeat 0 n))
    else (0%Z, firstn n full).
Proof.
  intros chars full n.
  unfold parse_guid_conversion, MultiByteToWideChar, wstring_fill, strlen.
  fold chars. change ((-1 =? -1)%Z) with true. cbn iota. fold full.
  rewrite repeat_length. fold n.
  destruct (Nat.eqb_spec n 0) as [Hn|Hn].
  - rewrite Hn. reflexivity.
  - destruct (Z.eqb_spec (Z.of_nat n) 0); [lia|].
    destruct (Nat.leb_spec (List.length full) n);
      destruct (Z.leb_spec (Z.of_nat (List.length full)) (Z.of_nat n)); try lia.
    + reflexivity.
    + rewrite Nat2Z.id, skipn_all2 by (rewrite repeat_length; lia).
      now rewrite app_nil_r.
Qed.

Lemma c_chars_nonzero s : Forall (fun c => c <> 0) (c_chars s).
Proof. apply until_nul_nonzero. Qed.

(** For a non-empty ASCII identifier the buffer is one unit short: the
    conversion reports failure, and leaves the identifier's characters. *)
Lemma parse_guid_conversion_ascii s :
  forallb low (c_chars s) = true -> c_chars s <> [] ->
  parse_guid_conversion s = (0%Z, c_chars s).
Proof.
  intros Hlow Hne. rewrite parse_guid_conversion_eq. cbv zeta.
  rewrite utf8_decode_low by assumption.
  change (utf8_decode [0]) with [0].
  rewrite length_app. cbn [List.length].
  destruct (Nat.eqb_spec (List.length (c_chars s)) 0) as [Hn|Hn].
  - destruct (c_chars s); [contradiction|discriminate].
  - destruct (Nat.leb_spec (List.length (c_chars s) + 1) (List.length (c_chars s)));
      [lia|].
    rewrite firstn_app, Nat.sub_diag, firstn_all, firstn_O, app_nil_r.
    reflexivity.
Qed.

(** What [winrt_guid] is given: the identifier's characters when they are
    ASCII, and otherwise a text that is not ASCII. *)
Lemma parse_guid_view s :
  (forallb low (c_chars s) = true ->
     c_str (snd (parse_guid_conversion s)) = c_chars s) /\
  (forallb low (c_chars s) = false ->
     forallb low (c_str (snd (parse_guid_conversion s))) = false).
Proof.
  split; intros Hlow.
  - destruct (c_chars s) as [|c t] eqn:E.
    + rewrite parse_guid_conversion_eq, E. reflexivity.
    + rewrite parse_guid_conversion_ascii; rewrite E; [|assumption|discriminate].
      unfold c_str. cbn [snd]. apply until_nul_fixed.
      rewrite <- E. apply c_chars_nonzero.
  - destruct (split_at_high (c_chars s) (c_chars_nonzero s))
      as [H|(a & b & r & E & Ha & Hb)]; [congruence|].
    rewrite parse_guid_conversion_eq. cbv zeta. rewrite E.
    rewrite <- app_assoc, <- app_comm_cons, utf8_decode_low by assumption.
    destruct (utf8_decode_high b (r ++ [0]) Hb) as (u & rest & -> & Hu).
    assert (Hview : forall tail,
               forallb low (c_str (a ++ u :: tail)) = false).
    { intros tail. unfold c_str.
      rewrite until_nul_app_cons by (try apply low_nonzero; try lia; assumption).
      rewrite forallb_app. cbn [forallb].
      replace (low u) with false.
      - now rewrite andb_false_r.
      - symmetry. unfold low. apply andb_false_intro2. apply N.ltb_ge. lia. }
    rewrite !length_app. cbn [List.length].
    destruct (Nat.eqb_spec (List.length a + S (List.length r)) 0); [lia|].
    match goal with |- context [Nat.leb ?x ?y] => destruct (Nat.leb x y) end.
    + cbn [snd]. rewrite <- app_assoc, <- app_comm_cons. apply Hview.
    + cbn [snd]. rewrite firstn_app_2. cbn [firstn]. apply Hview.
Qed.

(** [parse_guid] on a well-formed identifier: the GUID its text denotes. *)
Lemma parse_guid_well_formed s :
  well_formed_uuid s = true ->
  parse_guid s = winrt_guid (c_chars s) /\ exists g, parse_guid s = inl g.
Proof.
  unfold well_formed_uuid. intros Hwf.
  assert (Hview := proj1 (parse_guid_view s) (guid_text_low _ Hwf)).
  assert (E : parse_guid s = winrt_guid (c_chars s)).
  { unfold parse_guid. destruct (parse_guid_conversion s) as [ret buf].
    cbn [snd] in Hview. now rewrite Hview. }
  split; [exact E|]. rewrite E. now apply winrt_guid_accepts.
Qed.

(** [parse_guid] on anything else raises. *)
Lemma parse_guid_malformed s :
  well_formed_uuid s = false -> exists e, parse_guid s = inr e.
Proof.
  unfold well_formed_uuid. intros Hwf.
  unfold parse_guid. destruct (parse_guid_conversion s) as [ret buf] eqn:E.
  apply winrt_guid_rejects.
  destruct (forallb low (c_chars s)) eqn:Hlow.
  - pose proof (proj1 (parse_guid_view s) Hlow) as Hview.
    rewrite E in Hview. cbn [snd] in Hview. now rewrite Hview.
  - pose proof (proj2 (parse_guid_view s) Hlow) as Hview.
    rewrite E in Hview. cbn [snd] in Hview.
    destruct (is_guid_text (c_str buf)) eqn:G; [|reflexivity].
    apply guid_text_low in G. congruence.
Qed.

(* ===================================================================== *)
(** ** Invariants of the reachable worlds                                 *)
(* ===================================================================== *)

Lemma invariant_initial : invariant initial.
Proof. repeat split; try reflexivity. Qed.

Ltac some_inv :=
  repeat match goal with
  | H : Some _ = Some _ |- _ => inversion H; subst; clear H
  | H : None = Some _ |- _ => discriminate H
  end.

Lemma invariant_handler value w :
  invariant w -> invariant (WriteRequested_handler value w).
Proof.
  unfold WriteRequested_handler.
  destruct (read_loop (FromBuffer value) []) as [data r].
  destruct w as [rn gsp cb th ctl al os tr]; destruct cb; exact (fun H => H).
Qed.

Lemma invariant_step l w w' : invariant w -> step l w = Some w' -> invariant w'.
Proof.
  intros Hinv H. unfold step in H.
  pose proof Hinv as (Hal & Hth & Hct & Hsv).
  rewrite Hal in H. cbn [negb] in H.
  destruct l.
  - (* call_start *)
    destruct (control w) eqn:Ec; some_inv.
    unfold start_ble_server.
    destruct (running w) eqn:Er; [assumption|].
    unfold control_inv in Hct. rewrite Ec in Hct. specialize (Hct Er).
    destruct w as [rn gsp cb th ctl al os tr]; simpl in *; subst.
    repeat split; simpl; try assumption; try apply Hth; discriminate.
  - (* call_stop *)
    destruct (control w) eqn:Ec; some_inv.
    unfold stop_enter. destruct (running w) eqn:Er; [|assumption].
    destruct w as [rn gsp cb th ctl al os tr]; simpl in *; subst.
    repeat split; simpl; try assumption; apply Hth.
  - (* join_returns *)
    destruct (control w) eqn:Ec; some_inv.
    unfold control_inv in Hct. rewrite Ec in Hct.
    unfold stop_join in H.
    destruct w as [rn gsp cb th ctl al os tr]; simpl in *; subst.
    destruct th as [|su cu pc]; [|destruct pc]; some_inv;
      repeat split; simpl; try assumption; try reflexivity; apply Hth.
  - (* stop_returns *)
    destruct (control w) eqn:Ec; some_inv.
    unfold control_inv in Hct. rewrite Ec in Hct. destruct Hct as [Hr Ht].
    destruct w as [rn gsp cb th ctl al os tr]; simpl in *; subst.
    repeat split; simpl; try assumption; try reflexivity; apply Hth.
  - (* background *)
    rename H into H'. unfold thread_step in H'.
    destruct w as [rn gsp cb th ctl al os tr].
    destruct os as [nx sv chs hs adv].
    unfold thread_inv, control_inv, services_inv, nothing_active in *.
    cbn [ble_thread running control alive stack trace g_service_provider
         g_callback characteristics write_handlers advertising services
         next_provider] in *.
    subst al.
    destruct th as [|su cu pc]; [discriminate|].
    assert (Hct' : forall pc', match ctl with
              | Idle => rn = false -> thread_of su cu pc' = not_a_thread
              | Stop_L116_join => rn = false
              | Stop_L119_clear => rn = false /\ thread_of su cu pc' = not_a_thread
              end).
    { intros pc'. destruct ctl; auto.
      - intros Hr. specialize (Hct Hr). discriminate.
      - destruct Hct; discriminate. }
    destruct pc; unfold thread_block in H';
      repeat match type of H' with
      | context [parse_guid ?s] => destruct (parse_guid s)
      | context [BluetoothError_eqb ?a ?b] => destruct (BluetoothError_eqb a b)
      end;
      destruct gsp as [p|]; destruct rn;
      cbn in H'; some_inv;
      repeat match goal with
      | Hx : _ /\ _ |- _ => destruct Hx
      | Hx : exists _, _ |- _ => destruct Hx
      end; subst; some_inv;
      unfold invariant, thread_inv, control_inv, services_inv, nothing_active;
      cbn; unfold not_of; rewrite ?Nat.eqb_refl;
      try match goal with
      | Hlt : (?p < ?nx)%nat |- context [Nat.eqb ?nx ?p] =>
          rewrite (proj2 (Nat.eqb_neq nx p)) by lia
      end;
      cbn; repeat split; auto; try apply Hct'; try discriminate; try lia; eauto.
  - (* peer_write *)
    destruct (write_deliverable w); [|discriminate].
    some_inv; now apply invariant_handler.
Qed.

Lemma reachable_invariant w : reachable w -> invariant w.
Proof.
  induction 1; [apply invariant_initial|eapply invariant_step; eassumption].
Qed.

(* ===================================================================== *)
(** ** Runs                                                               *)
(* ===================================================================== *)

Lemma run_app a : forall b w,
  run (a ++ b) w = match run a w with Some w' => run b w' | None => None end.
Proof.
  induction a as [|l a IH]; intros b w; simpl; [reflexivity|].
  destruct (step l w); [apply IH|reflexivity].
Qed.

Lemma run_reachable ls : forall w w',
  reachable w -> run ls w = Some w' -> reachable w'.
Proof.
  induction ls as [|l ls IH]; simpl; intros w w' Hr H.
  - inversion H; subst; assumption.
  - destruct (step l w) as [w1|] eqn:E; [|discriminate].
    eapply IH; [|eassumption]. eapply reachable_step; eassumption.
Qed.

Lemma sink_calls_app a b : sink_calls (a ++ b) = sink_calls a ++ sink_calls b.
Proof. apply filter_app. Qed.

Lemma events_since_app w w' new :
  trace w' = trace w ++ new -> events_since w w' = new.
Proof.
  unfold events_since. intros ->.
  rewrite skipn_app, skipn_all, Nat.sub_diag. reflexivity.
Qed.

(** The read loop returns the whole buffer and leaves the reader
    exhausted. *)
Lemma skipn_nth_error {A} (l : list A) : forall n x,
  nth_error l n = Some x -> skipn n l = x :: skipn (S n) l.
Proof.
  induction l as [|y t IH]; intros [|n] x H; simpl in *; try discriminate.
  - congruence.
  - now apply IH.
Qed.

Lemma read_loop_spec reader data :
  fst (read_loop reader data) = data ++ skipn (rd_position reader) (rd_buffer reader)
  /\ UnconsumedBufferLength (snd (read_loop reader data)) = 0%nat.
Proof.
  funelim (read_loop reader data).
  - (* nothing left *)
    cbn [fst snd].
    match goal with
    | E : Nat.ltb _ _ = false |- _ =>
        pose proof (proj1 (Nat.ltb_ge _ _) E) as Hle
    end.
    unfold UnconsumedBufferLength in Hle |- *.
    rewrite skipn_all2 by lia. rewrite app_nil_r. split; [reflexivity|lia].
  - (* one more byte *)
    match goal with
    | IH : fst (read_loop _ _) = _ /\ _ |- _ => destruct IH as [IH1 IH2]
    end.
    match goal with
    | E : ReadByte ?r = Some _ |- _ =>
        pose proof E as Hread; unfold ReadByte in Hread;
        destruct (nth_error (rd_buffer r) (rd_position r)) eqn:En;
        [|discriminate]; inversion Hread; subst; clear Hread
    end.
    split; [|exact IH2].
    rewrite IH1. cbn [rd_buffer rd_position].
    rewrite (skipn_nth_error _ _ _ En), <- app_assoc. reflexivity.
  - (* [ReadByte] cannot fail while bytes remain *)
    exfalso.
    match goal with
    | E : Nat.ltb _ _ = true |- _ =>
        pose proof (proj1 (Nat.ltb_lt _ _) E) as Hlt;
        unfold UnconsumedBufferLength in Hlt
    end.
    match goal with
    | E : ReadByte ?r = None |- _ =>
        pose proof E as Hread; unfold ReadByte in Hread;
        destruct (nth_error (rd_buffer r) (rd_position r)) eqn:En;
        [discriminate|]; apply nth_error_None in En
    end.
    lia.
Qed.

Lemma read_loop_payload value :
  exists reader, read_loop (FromBuffer value) [] = (value, reader)
                 /\ UnconsumedBufferLength reader = 0%nat.
Proof.
  destruct (read_loop_spec (FromBuffer value) []) as [H1 H2].
  destruct (read_loop (FromBuffer value) []) as [data reader].
  exists reader. cbn [fst snd] in *. subst. split; [reflexivity|assumption].
Qed.

(** The handler, on its trace. *)
Lemma handler_trace value w :
  trace (WriteRequested_handler value w) =
    trace w ++ [GetDeferral; GetRequestAsync]
      ++ match g_callback w with
         | Some callback => [callback_called callback value (List.length value)]
         | None => []
         end
      ++ [Respond; deferral_Complete].
Proof.
  unfold WriteRequested_handler.
  destruct (read_loop_payload value) as (reader & -> & _).
  destruct w as [rn gsp cb th ctl al os tr]; destruct cb; cbn;
    rewrite <- !app_assoc; reflexivity.
Qed.

Lemma handler_frame value w :
  let w' := WriteRequested_handler value w in
  running w' = running w /\ g_service_provider w' = g_service_provider w
  /\ g_callback w' = g_callback w /\ ble_thread w' = ble_thread w
  /\ control w' = control w /\ alive w' = alive w /\ stack w' = stack w.
Proof.
  unfold WriteRequested_handler.
  destruct (read_loop (FromBuffer value) []) as [data reader].
  destruct w as [rn gsp cb th ctl al os tr]; destruct cb; cbn; auto 10.
Qed.

(* ===================================================================== *)
(** ** Concrete worlds used to exercise the statements                   *)
(* ===================================================================== *)

Lemma serving_world_reachable : reachable serving_world.
Proof.
  apply (run_reachable (serving_labels (Some 1%nat)) initial);
    [constructor | vm_compute; reflexivity].
Qed.

(* ===================================================================== *)
(** ** The write handler                                                  *)
(* ===================================================================== *)

(** C1, as amended.  For a write request carrying [value], when a sink is
    stored in [g_callback]: the read loop returns exactly [value] and leaves
    the reader exhausted, and the handler's events are, in this order, the
    deferral, the request, one call of the sink with [value] and its length,
    the success response and the completion of the deferral.  Nothing else
    of the world changes. *)
Theorem C1_write_forwarded_to_stored_sink
    (value : list byte) (w : World) (callback : nat)
    (Hsink : g_callback w = Some callback) :
  (exists reader, read_loop (FromBuffer value) [] = (value, reader)
                  /\ UnconsumedBufferLength reader = 0%nat)
  /\ events_since w (WriteRequested_handler value w) =
       [GetDeferral; GetRequestAsync;
        callback_called callback value (List.length value);
        Respond; deferral_Complete]
  /\ sink_calls (events_since w (WriteRequested_handler value w)) =
       [callback_called callback value (List.length value)]
  /\ stack (WriteRequested_handler value w) = stack w
  /\ g_callback (WriteRequested_handler value w) = g_callback w.
Proof.
  assert (E : events_since w (WriteRequested_handler value w) =
              [GetDeferral; GetRequestAsync;
               callback_called callback value (List.length value);
               Respond; deferral_Complete]).
  { apply events_since_app. rewrite handler_trace, Hsink. reflexivity. }
  split; [apply read_loop_payload|].
  rewrite E. split; [reflexivity|]. split; [reflexivity|].
  pose proof (handler_frame value w) as F. cbv zeta in F. tauto.
Qed.

Lemma C1_write_forwarded_witness :
  g_callback serving_world = Some 1%nat
  /\ sink_calls (events_since serving_world
       (WriteRequested_handler [Byte.x01; Byte.x02; Byte.x03] serving_world)) =
     [callback_called 1 [Byte.x01; Byte.x02; Byte.x03] 3].
Proof.
  split; [reflexivity|].
  exact (proj1 (proj2 (proj2
    (C1_write_forwarded_to_stored_sink
       [Byte.x01; Byte.x02; Byte.x03] serving_world 1%nat eq_refl)))).
Defined.

(** C1 as stated fails: after [start] with a null callback and a successful
    setup, a write request of three bytes is delivered to the handler and
    the sink is called zero times, not once. *)
Lemma C1_null_sink_counterexample :
  run (serving_labels None) initial = Some unsunk_world
  /\ step (peer_write [Byte.x01; Byte.x02; Byte.x03]) unsunk_world =
       Some (WriteRequested_handler [Byte.x01; Byte.x02; Byte.x03] unsunk_world)
  /\ sink_calls (events_since unsunk_world
       (WriteRequested_handler [Byte.x01; Byte.x02; Byte.x03] unsunk_world)) = []
  /\ events_since unsunk_world
       (WriteRequested_handler [Byte.x01; Byte.x02; Byte.x03] unsunk_world) =
     [GetDeferral; GetRequestAsync; Respond; deferral_Complete].
Proof. repeat split; vm_compute; reflexivity. Qed.


(* ===================================================================== *)
(** ** The control surface when there is nothing to do                   *)
(* ===================================================================== *)

Lemma start_noop_when_running name service_uuid characteristic_uuid callback w :
  running w = true ->
  start_ble_server name service_uuid characteristic_uuid callback w = w.
Proof. unfold start_ble_server. now intros ->. Qed.

Lemma one_pair_at_most w :
  invariant w ->
  (List.length (characteristics (stack w)) <= 1)%nat
  /\ (List.length (services (stack w)) <= 1)%nat
  /\ (List.length (write_handlers (stack w)) <= 1)%nat.
Proof.
  intros (_ & Hth & _ & Hsv).
  unfold thread_inv, services_inv, nothing_active in *.
  assert (Hs : (List.length (services (stack w)) <= 1)%nat).
  { destruct (g_service_provider w); [destruct Hsv as [-> _]|rewrite Hsv];
      simpl; lia. }
  destruct (ble_thread w) as [|su cu pc]; [|destruct pc];
    repeat match goal with
    | H : _ /\ _ |- _ => destruct H
    | H : exists _, _ |- _ => destruct H
    end;
    repeat match goal with
    | H : characteristics _ = _ |- _ => rewrite H; clear H
    | H : write_handlers _ = _ |- _ => rewrite H; clear H
    end; simpl; auto.
Qed.

(** C2.  In every reachable world the stack holds at most one
    characteristic and at most one service of this process; and where the
    flag is set, [start_ble_server] returns the world it was given: the flag,
    the stored sink, the thread object, the stack and the trace are the same,
    so no thread is started and nothing is created.  From the idle control
    state the call is such a step. *)
Theorem C2_start_while_running_is_noop (w : World) (Hreach : reachable w)
    (Hrunning : running w = true) :
  (forall name service_uuid characteristic_uuid callback,
      start_ble_server name service_uuid characteristic_uuid callback w = w
      /\ (control w = Idle ->
          step (call_start name service_uuid characteristic_uuid callback) w = Some w))
  /\ (List.length (characteristics (stack w)) <= 1)%nat
  /\ (List.length (services (stack w)) <= 1)%nat
  /\ (forall l w', step l w = Some w' ->
        (List.length (characteristics (stack w')) <= 1)%nat
        /\ (List.length (services (stack w')) <= 1)%nat).
Proof.
  pose proof (reachable_invariant w Hreach) as Hinv.
  split; [|split; [|split]].
  - intros name su cu cb.
    split; [now apply start_noop_when_running|].
    intros Hidle. unfold step.
    destruct Hinv as (-> & _). cbn [negb]. rewrite Hidle.
    now rewrite start_noop_when_running.
  - apply one_pair_at_most, Hinv.
  - apply one_pair_at_most, Hinv.
  - intros l w' Hstep.
    pose proof (one_pair_at_most w' (invariant_step l w w' Hinv Hstep)). tauto.
Qed.

Lemma C2_start_while_running_witness :
  running serving_world = true
  /\ start_ble_server "other" demo_characteristic demo_service (Some 2%nat)
       serving_world = serving_world
  /\ (List.length (characteristics (stack serving_world)) <= 1)%nat.
Proof.
  pose proof (C2_start_while_running_is_noop serving_world
                serving_world_reachable eq_refl) as (Hstart & Hone & _).
  split; [reflexivity|]. split; [apply Hstart|exact Hone].
Defined.

(** C6.  Where the flag is clear, the first block of [stop_ble_server]
    returns the world it was given; as a step of the controlling thread it
    is always enabled and leaves that thread outside [stop_ble_server]: the
    join is not reached and nothing is recorded. *)
Theorem C6_stop_while_idle_is_noop (w : World) (Hreach : reachable w)
    (Hidle : control w = Idle) (Hstopped : running w = false) :
  stop_enter w = w
  /\ step call_stop w = Some w
  /\ control (stop_enter w) = Idle
  /\ events_since w (stop_enter w) = [].
Proof.
  assert (E : stop_enter w = w) by (unfold stop_enter; now rewrite Hstopped).
  rewrite E. split; [reflexivity|]. split; [|split; [assumption|]].
  - unfold step. destruct (reachable_invariant w Hreach) as (-> & _).
    cbn [negb]. now rewrite Hidle, E.
  - apply events_since_app. now rewrite app_nil_r.
Qed.

Lemma C6_stop_while_idle_witness :
  running initial = false /\ step call_stop initial = Some initial.
Proof.
  split; [reflexivity|].
  exact (proj1 (proj2
    (C6_stop_while_idle_is_noop initial reachable_initial eq_refl eq_refl))).
Defined.

(* ===================================================================== *)
(** ** The characteristic                                                 *)
(* ===================================================================== *)

Lemma Forall_filter {A} (P : A -> Prop) f l : Forall P l -> Forall P (filter f l).
Proof.
  induction 1 as [|x t Hx _ IH]; simpl; [constructor|].
  destruct (f x); [constructor|]; assumption.
Qed.

Lemma params_inv_step l w w' : params_inv w -> step l w = Some w' -> params_inv w'.
Proof.
  intros [Htr Hch] H. unfold step in H.
  destruct (alive w); [|discriminate]. cbn [negb] in H.
  destruct l.
  - destruct (control w); try discriminate. inversion H; subst; clear H.
    unfold start_ble_server.
    destruct (running w); [split; assumption|].
    destruct w as [rn gsp cb th ctl al os tr]; destruct th; cbn in *;
      split; cbn; auto; apply Forall_app; split; auto; repeat constructor.
  - destruct (control w); try discriminate. inversion H; subst; clear H.
    unfold stop_enter. destruct (running w); split; assumption.
  - destruct (control w); try discriminate. unfold stop_join in H.
    destruct w as [rn gsp cb th ctl al os tr]; cbn in *.
    destruct th as [|su cu pc]; [|destruct pc]; inversion H; subst; clear H;
      split; cbn; auto; apply Forall_app; split; auto; repeat constructor.
  - destruct (control w); try discriminate. inversion H; subst; clear H.
    split; assumption.
  - unfold thread_step in H.
    destruct w as [rn gsp cb th ctl al os tr]. destruct os as [nx sv chs hs adv].
    cbn in Htr, Hch. cbn [ble_thread] in H.
    destruct th as [|su cu pc]; [discriminate|].
    destruct pc; unfold thread_block in H;
      repeat match type of H with
      | context [parse_guid ?s] => destruct (parse_guid s)
      | context [BluetoothError_eqb ?a ?b] => destruct (BluetoothError_eqb a b)
      end;
      destruct gsp as [p|]; destruct rn; cbn in H;
      try discriminate; inversion H; subst; clear H;
      split; cbn;
      repeat match goal with
      | |- Forall _ (_ ++ _) => apply Forall_app; split
      | |- Forall _ (filter _ _) => apply Forall_filter
      | |- Forall _ (_ :: _) => constructor
      | |- Forall _ [] => constructor
      end; auto; try exact I; try reflexivity.
  - destruct (write_deliverable w); [|discriminate]. inversion H; subst; clear H.
    pose proof (handler_frame value w) as F. cbv zeta in F.
    destruct F as (_ & _ & _ & _ & _ & _ & Fs).
    split; [|now rewrite Fs].
    rewrite handler_trace. apply Forall_app; split; [assumption|].
    destruct (g_callback w); repeat constructor.
Qed.

Lemma reachable_params_inv w : reachable w -> params_inv w.
Proof.
  induction 1; [split; constructor|eapply params_inv_step; eassumption].
Qed.

(* ===================================================================== *)
(** ** What a step leaves alone                                           *)
(* ===================================================================== *)

Lemma thread_step_frame reply w w' :
  thread_step reply w = Some w' ->
  running w' = running w /\ g_callback w' = g_callback w /\ control w' = control w
  /\ (exists su cu pc pc',
        ble_thread w = thread_of su cu pc /\ ble_thread w' = thread_of su cu pc')
  /\ exists new, trace w' = trace w ++ new /\ sink_calls new = [].
Proof.
  unfold thread_step. intros H.
  destruct w as [rn gsp cb th ctl al os tr]. destruct os as [nx sv chs hs adv].
  cbn [ble_thread] in H.
  destruct th as [|su cu pc]; [discriminate|].
  destruct pc; unfold thread_block in H;
    repeat match type of H with
    | context [parse_guid ?s] => destruct (parse_guid s)
    | context [BluetoothError_eqb ?a ?b] => destruct (BluetoothError_eqb a b)
    end;
    destruct gsp as [p|]; destruct rn; cbn in H;
    try discriminate; inversion H; subst; clear H; cbn;
    (split; [reflexivity|]); (split; [reflexivity|]); (split; [reflexivity|]);
    (split; [eexists _, _, _, _; split; reflexivity|]);
    eexists;
    (split;
      [ rewrite <- ?app_assoc; cbn;
        first [reflexivity | symmetry; apply app_nil_r]
      | reflexivity ]).
Qed.

(** Without a stored callback, and short of a new [start], no step calls a
    sink. *)
Lemma silent_step l w w' :
  g_callback w = None -> is_call_start l = false -> step l w = Some w' ->
  g_callback w' = None /\ sink_calls (trace w') = sink_calls (trace w).
Proof.
  intros Hcb Hl H. unfold step in H.
  destruct (alive w); [|discriminate]. cbn [negb] in H.
  destruct l; try discriminate Hl.
  - destruct (control w); try discriminate. inversion H; subst; clear H.
    unfold stop_enter. destruct (running w); cbn; auto.
  - destruct (control w); try discriminate. unfold stop_join in H.
    destruct w as [rn gsp cb th ctl al os tr]; cbn in *.
    destruct th as [|su cu pc]; [|destruct pc]; inversion H; subst; clear H;
      cbn; split; auto.
    rewrite sink_calls_app. cbn. apply app_nil_r.
  - destruct (control w); try discriminate. inversion H; subst; clear H.
    cbn. auto.
  - destruct (thread_step_frame _ _ _ H) as (_ & Hc & _ & _ & new & Ht & Hs).
    split; [congruence|]. rewrite Ht, sink_calls_app, Hs. apply app_nil_r.
  - destruct (write_deliverable w); [|discriminate]. inversion H; subst; clear H.
    pose proof (handler_frame value w) as F. cbv zeta in F.
    split; [destruct F as (_ & _ & -> & _); assumption|].
    rewrite handler_trace, Hcb, sink_calls_app. cbn. apply app_nil_r.
Qed.

Lemma silent_run ls : forall w w',
  g_callback w = None ->
  Forall (fun l => is_call_start l = false) ls -> run ls w = Some w' ->
  g_callback w' = None /\ sink_calls (trace w') = sink_calls (trace w).
Proof.
  induction ls as [|l ls IH]; simpl; intros w w' Hcb Hls H.
  - inversion H; subst. auto.
  - inversion Hls as [|? ? Hl Hls']; subst.
    destruct (step l w) as [w1|] eqn:E; [|discriminate].
    destruct (silent_step l w w1 Hcb Hl E) as [Hcb1 Hs1].
    destruct (IH w1 w' Hcb1 Hls' H) as [Hcb' Hs'].
    split; congruence.
Qed.

Lemma in_stop_step sink l w w' :
  in_stop sink w -> is_stop_returns l = false -> step l w = Some w' ->
  in_stop sink w'.
Proof.
  intros (Hr & Hcb & Hc) Hl H. unfold step in H.
  destruct (alive w); [|discriminate]. cbn [negb] in H.
  destruct l; try discriminate Hl.
  - destruct Hc as [Hc|[Hc _]]; rewrite Hc in H; discriminate.
  - destruct Hc as [Hc|[Hc _]]; rewrite Hc in H; discriminate.
  - destruct Hc as [Hc|[Hc _]]; rewrite Hc in H; [|discriminate].
    unfold stop_join in H.
    destruct w as [rn gsp cb th ctl al os tr]; cbn in *.
    destruct th as [|su cu pc]; [|destruct pc]; inversion H; subst; clear H;
      repeat split; cbn; auto.
  - destruct (thread_step_frame _ _ _ H)
      as (Hr' & Hcb' & Hc' & (su & cu & pc & pc' & Ht & Ht') & _).
    repeat split; try congruence.
    destruct Hc as [Hc|[Hc Hn]]; [left; congruence|congruence].
  - destruct (write_deliverable w); [|discriminate]. inversion H; subst; clear H.
    pose proof (handler_frame value w) as F. cbv zeta in F.
    destruct F as (F1 & _ & F3 & F4 & F5 & _).
    unfold in_stop. rewrite F1, F3, F4, F5. auto.
Qed.

Lemma in_stop_run sink ls : forall w w',
  in_stop sink w -> Forall (fun l => is_stop_returns l = false) ls ->
  run ls w = Some w' -> in_stop sink w'.
Proof.
  induction ls as [|l ls IH]; simpl; intros w w' Hin Hls H.
  - inversion H; subst; assumption.
  - inversion Hls; subst.
    destruct (step l w) as [w1|] eqn:E; [|discriminate].
    eapply IH; [|eassumption|eassumption].
    eapply in_stop_step; eassumption.
Qed.

Lemma step_extends l w w' :
  step l w = Some w' -> exists new, trace w' = trace w ++ new.
Proof.
  intros H. unfold step in H.
  destruct (alive w); [|discriminate]. cbn [negb] in H.
  destruct l.
  - destruct (control w); try discriminate. inversion H; subst; clear H.
    unfold start_ble_server. destruct (running w); [exists []; now rewrite app_nil_r|].
    destruct w as [rn gsp cb th ctl al os tr]; destruct th; cbn;
      [eexists; reflexivity|exists []; now rewrite app_nil_r].
  - destruct (control w); try discriminate. inversion H; subst; clear H.
    unfold stop_enter. destruct (running w); exists []; now rewrite app_nil_r.
  - destruct (control w); try discriminate. unfold stop_join in H.
    destruct w as [rn gsp cb th ctl al os tr]; cbn in *.
    destruct th as [|su cu pc]; [|destruct pc]; inversion H; subst; clear H; cbn;
      first [eexists; reflexivity | exists []; now rewrite app_nil_r].
  - destruct (control w); try discriminate. inversion H; subst; clear H.
    exists []. cbn. now rewrite app_nil_r.
  - destruct (thread_step_frame _ _ _ H) as (_ & _ & _ & _ & new & Ht & _). eauto.
  - destruct (write_deliverable w); [|discriminate]. inversion H; subst; clear H.
    rewrite handler_trace. eauto.
Qed.

Lemma run_extends ls : forall w w',
  run ls w = Some w' -> exists new, trace w' = trace w ++ new.
Proof.
  induction ls as [|l ls IH]; simpl; intros w w' H.
  - inversion H; subst. exists []. now rewrite app_nil_r.
  - destruct (step l w) as [w1|] eqn:E; [|discriminate].
    destruct (step_extends _ _ _ E) as [n1 H1].
    destruct (IH _ _ H) as [n2 H2].
    exists (n1 ++ n2). now rewrite H2, H1, app_assoc.
Qed.

Lemma silent_since ls w w' :
  g_callback w = None ->
  Forall (fun l => is_call_start l = false) ls -> run ls w = Some w' ->
  sink_calls (events_since w w') = [].
Proof.
  intros Hcb Hls H.
  destruct (run_extends _ _ _ H) as [new Hnew].
  destruct (silent_run ls w w' Hcb Hls H) as [_ Hs].
  rewrite (events_since_app _ _ _ Hnew).
  rewrite Hnew, sink_calls_app in Hs.
  rewrite <- (app_nil_r (sink_calls (trace w))) in Hs at 2.
  now apply app_inv_head in Hs.
Qed.

(* ===================================================================== *)
(** ** Failed creation requests                                           *)
(* ===================================================================== *)

Lemma dangling_facts su cu w :
  dangling su cu w -> alive w = true /\ control w = Idle /\ nothing_active w.
Proof.
  intros (Hreach & Hr & Ht).
  destruct (reachable_invariant w Hreach) as (Hal & Hth & Hct & _).
  unfold thread_inv, control_inv in *. rewrite Ht in *.
  repeat split; try apply Hth; try assumption.
  destruct (control w); [reflexivity|congruence|destruct Hct; congruence].
Qed.

Lemma dangling_step su cu l w w' :
  dangling su cu w -> is_call_stop l = false -> step l w = Some w' ->
  dangling su cu w'.
Proof.
  intros Hd Hl H.
  destruct (dangling_facts _ _ _ Hd) as (Hal & Hc & _ & Hh & _).
  pose proof Hd as (Hreach & Hr & Ht).
  assert (Hreach' : reachable w') by (eapply reachable_step; eassumption).
  unfold step in H. rewrite Hal, Hc in H. cbn [negb] in H.
  destruct l; try discriminate.
  - inversion H; subst; clear H.
    rewrite start_noop_when_running in * by assumption. assumption.
  - unfold thread_step in H. rewrite Ht in H. discriminate.
  - unfold write_deliverable in H. rewrite Hh in H. discriminate.
Qed.

Lemma dangling_run su cu ls : forall w w',
  dangling su cu w -> Forall (fun l => is_call_stop l = false) ls ->
  run ls w = Some w' -> dangling su cu w'.
Proof.
  induction ls as [|l ls IH]; simpl; intros w w' Hd Hls H.
  - inversion H; subst; assumption.
  - inversion Hls; subst.
    destruct (step l w) as [w1|] eqn:E; [|discriminate].
    eapply IH; [|eassumption|eassumption].
    eapply dangling_step; eassumption.
Qed.

(** C4.  While the flag is set, when the stack answers the service request
    (line 51) or the characteristic request (line 64) with an error code,
    the thread records the request, logs its diagnostic and returns; the
    flag is still set, no characteristic, handler or advertisement exists.
    In every later execution without a call of [stop] this stays so; and a
    call of [stop] is then possible and clears the flag. *)
Theorem C4_failed_creation_leaves_flag_set
    (w : World) (su cu : string) (pc : Location) (reply : BluetoothError)
    (Hreach : reachable w) (Hrunning : running w = true)
    (Hthread : ble_thread w = thread_of su cu pc)
    (Hpc : at_creation pc = true) (Hfail : reply <> Success) :
  exists w',
    step (background reply) w = Some w'
    /\ ble_thread w' = thread_of su cu L108_returned
    /\ events_since w w' = creation_failure_events pc w reply
    /\ (exists request diagnostic,
          events_since w w' = [request; OutputDebugString diagnostic])
    /\ forall ls w'',
         Forall (fun l => is_call_stop l = false) ls ->
         run ls w' = Some w'' ->
         running w'' = true
         /\ nothing_active w''
         /\ ble_thread w'' = thread_of su cu L108_returned
         /\ exists w3, step call_stop w'' = Some w3 /\ running w3 = false.
Proof.
  pose proof (reachable_invariant w Hreach) as (Hal & Hth & _ & _).
  assert (Hne : BluetoothError_eqb reply Success = false)
    by (destruct reply; try reflexivity; contradiction).
  assert (Hstep : exists w',
    step (background reply) w = Some w'
    /\ ble_thread w' = thread_of su cu L108_returned
    /\ running w' = true
    /\ trace w' = trace w ++ creation_failure_events pc w reply
    /\ exists request diagnostic,
         creation_failure_events pc w reply = [request; OutputDebugString diagnostic]).
  { unfold step, thread_step. rewrite Hal, Hthread. cbn [negb].
    unfold thread_inv in Hth. rewrite Hthread in Hth.
    destruct w as [rn gsp cb th ctl al os tr]. cbn in Hrunning, Hthread, Hal |- *.
    subst.
    destruct pc; try discriminate Hpc; unfold thread_block, creation_failure_events;
      cbn [g_service_provider].
    - rewrite Hne. cbn. eexists. split; [reflexivity|]. cbn.
      split; [reflexivity|]. split; [reflexivity|].
      split; [now rewrite <- app_assoc|eauto].
    - destruct Hth as [_ Hgsp]. cbn in Hgsp.
      destruct gsp as [p|]; [|contradiction].
      rewrite Hne. cbn. eexists. split; [reflexivity|]. cbn.
      split; [reflexivity|]. split; [reflexivity|].
      split; [now rewrite <- app_assoc|eauto]. }
  destruct Hstep as (w' & Hs & Ht & Hr & Htr & request & diagnostic & Hev).
  exists w'. split; [assumption|]. split; [assumption|].
  rewrite (events_since_app _ _ _ Htr). split; [reflexivity|].
  split; [eauto|].
  intros ls w'' Hls Hrun.
  assert (Hd : dangling su cu w'').
  { eapply dangling_run; [|eassumption|eassumption].
    repeat split; try assumption. eapply reachable_step; eassumption. }
  destruct (dangling_facts _ _ _ Hd) as (Hal'' & Hc'' & Hna).
  destruct Hd as (_ & Hr'' & Ht'').
  repeat split; try apply Hna; try assumption.
  exists (stop_enter w''). split.
  - unfold step. now rewrite Hal'', Hc''.
  - unfold stop_enter. rewrite Hr''. reflexivity.
Qed.

Lemma requesting_characteristic_world_reachable :
  reachable requesting_characteristic_world.
Proof.
  apply (run_reachable
           (call_start "presenterd" demo_service demo_characteristic (Some 1%nat)
              :: repeat (background Success) 4) initial);
    [constructor | vm_compute; reflexivity].
Qed.

Lemma C4_failed_creation_witness :
  exists w',
    step (background RadioNotAvailable) requesting_characteristic_world = Some w'
    /\ running w' = true /\ nothing_active w'.
Proof.
  destruct (C4_failed_creation_leaves_flag_set requesting_characteristic_world
              demo_service demo_characteristic
              (L59_CreateCharacteristicAsync
                 (mk_guid 65505 0 4096 [128; 0; 0; 128; 95; 155; 52; 251]))
              RadioNotAvailable
              requesting_characteristic_world_reachable eq_refl eq_refl eq_refl
              ltac:(discriminate))
    as (w' & Hs & _ & _ & _ & Hlater).
  exists w'. split; [exact Hs|].
  destruct (Hlater [] w' (Forall_nil _) eq_refl) as (Hr & Hn & _).
  split; [exact Hr|exact Hn].
Defined.

(* ===================================================================== *)
(** ** Malformed identifiers                                              *)
(* ===================================================================== *)

Lemma aborted_setup_quiet su cu w0 w :
  aborted_setup su cu w0 w -> alive w = true /\ nothing_active w.
Proof.
  intros (Hreach & (pc & Ht & Hpc) & _).
  destruct (reachable_invariant w Hreach) as (Hal & Hth & _).
  split; [assumption|].
  unfold thread_inv in Hth. rewrite Ht in Hth.
  destruct pc; try contradiction; assumption.
Qed.

Lemma aborted_setup_step su cu w0 l w w' :
  well_formed_uuid su = false \/ well_formed_uuid cu = false ->
  aborted_setup su cu w0 w -> is_join_returns l = false ->
  step l w = Some w' -> aborted_setup su cu w0 w'.
Proof.
  intros Hbad Hab Hl H.
  destruct (aborted_setup_quiet _ _ _ _ Hab) as (Hal & _ & Hh & _).
  destruct Hab as (Hreach & (pc & Ht & Hpc) & new & Htr & Hnew).
  assert (Hreach' : reachable w') by (eapply reachable_step; eassumption).
  split; [assumption|]. clear Hreach'.
  destruct (reachable_invariant w Hreach) as (_ & _ & Hct & _).
  unfold control_inv in Hct.
  unfold step in H. rewrite Hal in H. cbn [negb] in H.
  destruct l; try discriminate Hl.
  - (* call_start: the flag is set *)
    destruct (control w); try discriminate. inversion H; subst; clear H.
    destruct (running w) eqn:Er; [|rewrite Ht in Hct; now specialize (Hct eq_refl)].
    rewrite start_noop_when_running by assumption. split; eauto.
  - (* call_stop *)
    destruct (control w); try discriminate. inversion H; subst; clear H.
    unfold stop_enter. destruct (running w); cbn; split; eauto.
  - (* stop_returns: only after the join *)
    destruct (control w); try discriminate. destruct Hct; congruence.
  - (* background *)
    unfold thread_step in H. rewrite Ht in H.
    destruct w as [rn gsp cb th ctl al os tr]. cbn in Ht, Htr |- *. subst th tr.
    destruct pc; try contradiction; unfold thread_block in H.
    + inversion H; subst; clear H. cbn. split; [eexists; split; [reflexivity|exact I]|].
      eexists. split; [now rewrite <- app_assoc|].
      apply Forall_app; split; [assumption|repeat constructor].
    + destruct (parse_guid su) as [g|e] eqn:Ep;
        inversion H; subst; clear H; cbn.
      * split; [eexists; split; [reflexivity|]|eauto].
        destruct Hbad as [Hbad|Hbad]; [|exact Hbad].
        destruct (parse_guid_malformed _ Hbad); congruence.
      * split; [eexists; split; [reflexivity|exact I]|].
        eexists. split; [now rewrite <- app_assoc|].
        apply Forall_app; split; [assumption|repeat constructor].
    + destruct (parse_guid_malformed _ Hpc) as [e Ee]. rewrite Ee in H.
      inversion H; subst; clear H. cbn.
      split; [eexists; split; [reflexivity|exact I]|].
      eexists. split; [now rewrite <- app_assoc|].
      apply Forall_app; split; [assumption|repeat constructor].
    + discriminate.
  - (* peer_write: no handler is subscribed *)
    unfold write_deliverable in H. rewrite Hh in H. discriminate.
Qed.

Lemma aborted_setup_run su cu w0 ls : forall w w',
  well_formed_uuid su = false \/ well_formed_uuid cu = false ->
  aborted_setup su cu w0 w -> Forall (fun l => is_join_returns l = false) ls ->
  run ls w = Some w' -> aborted_setup su cu w0 w'.
Proof.
  induction ls as [|l ls IH]; simpl; intros w w' Hbad Hab Hls H.
  - inversion H; subst; assumption.
  - inversion Hls; subst.
    destruct (step l w) as [w1|] eqn:E; [|discriminate].
    eapply IH; [assumption| |eassumption|eassumption].
    eapply aborted_setup_step; eassumption.
Qed.

(** C5.  A thread started on identifiers of which one is not a well-formed
    UUID text reaches the end of its function through the catch clause: it
    initialises the apartment, [parse_guid] raises on the first malformed
    identifier, the exception is logged with its message and the thread
    returns, the process alive.  In every execution from the start of the
    thread until it is joined, the process is alive, the stack holds no
    characteristic, handler or advertisement, and no request to the stack, no
    start of advertising and no sink call is recorded. *)
Theorem C5_malformed_identifier_aborts_setup (w : World) (su cu : string)
    (Hbad : well_formed_uuid su = false \/ well_formed_uuid cu = false)
    (Hreach : reachable w)
    (Hstart : ble_thread w = thread_of su cu L45_init_apartment) :
  (exists ls e w',
      forallb is_background ls = true
      /\ (parse_guid su = inr e
          \/ (well_formed_uuid su = true /\ parse_guid cu = inr e))
      /\ run ls w = Some w'
      /\ ble_thread w' = thread_of su cu L108_returned
      /\ alive w' = true
      /\ events_since w w' =
           [init_apartment;
            OutputDebugString (line (String.append "Exception: " (what e)))])
  /\ forall ls w',
       Forall (fun l => is_join_returns l = false) ls ->
       run ls w = Some w' ->
       alive w' = true
       /\ nothing_active w'
       /\ Forall (fun e => is_setup_or_sink e = false) (events_since w w').
Proof.
  pose proof (reachable_invariant w Hreach) as (Hal & _).
  split.
  - assert (Hcase : (exists e, parse_guid su = inr e)
                    \/ (well_formed_uuid su = true
                        /\ exists g e, parse_guid su = inl g /\ parse_guid cu = inr e)).
    { destruct (well_formed_uuid su) eqn:Esu.
      - right. split; [reflexivity|].
        destruct Hbad as [Hbad|Hbad]; [discriminate|].
        destruct (parse_guid_well_formed su Esu) as [_ [g Hg]].
        destruct (parse_guid_malformed cu Hbad) as [e He]. eauto.
      - left. now apply parse_guid_malformed. }
    destruct w as [rn gsp cb th ctl al os tr]. cbn in Hal, Hstart. subst al th.
    destruct Hcase as [[e He]|(Hsu & g & e & Hg & He)].
    + exists [background Success; background Success], e. eexists.
      split; [reflexivity|]. split; [left; exact He|].
      unfold run, step, thread_step; cbn -[events_since line String.append].
      rewrite He. cbn -[events_since line String.append].
      split; [reflexivity|]. split; [reflexivity|]. split; [reflexivity|].
      apply events_since_app. cbn -[line String.append]. now rewrite <- app_assoc.
    + exists [background Success; background Success; background Success], e.
      eexists.
      split; [reflexivity|]. split; [right; split; assumption|].
      unfold run, step, thread_step; cbn -[events_since line String.append].
      rewrite Hg. cbn -[events_since line String.append].
      rewrite He. cbn -[events_since line String.append].
      split; [reflexivity|]. split; [reflexivity|]. split; [reflexivity|].
      apply events_since_app. cbn -[line String.append]. now rewrite <- app_assoc.
  - intros ls w' Hls Hrun.
    assert (Hab : aborted_setup su cu w w').
    { eapply aborted_setup_run; [exact Hbad| |eassumption|eassumption].
      split; [assumption|].
      split; [exists L45_init_apartment; split; [assumption|exact I]|].
      exists []. split; [now rewrite app_nil_r|constructor]. }
    destruct (aborted_setup_quiet _ _ _ _ Hab) as [Hal' Hq].
    destruct Hab as (_ & _ & new & Htr & Hnew).
    rewrite (events_since_app _ _ _ Htr). auto.
Qed.

Lemma started_on_text_world_reachable : reachable started_on_text_world.
Proof.
  apply (run_reachable
           [call_start "presenterd" "not-a-uuid" demo_characteristic (Some 1%nat)]
           initial);
    [constructor | vm_compute; reflexivity].
Qed.

Lemma C5_malformed_identifier_witness :
  well_formed_uuid "not-a-uuid" = false
  /\ reachable started_on_text_world
  /\ nothing_active
       (world_after
          [call_start "presenterd" "not-a-uuid" demo_characteristic (Some 1%nat);
           background Success; background Success]).
Proof.
  split; [reflexivity|]. split; [exact started_on_text_world_reachable|].
  destruct (C5_malformed_identifier_aborts_setup started_on_text_world
              "not-a-uuid" demo_characteristic (or_introl eq_refl)
              started_on_text_world_reachable eq_refl) as [_ Hsafe].
  refine (proj1 (proj2 (Hsafe [background Success; background Success] _ _ _))).
  - repeat constructor.
  - vm_compute. reflexivity.
Defined.

(* ===================================================================== *)
(** ** Restarting                                                         *)
(* ===================================================================== *)

Lemma World_ext (w1 w2 : World) :
  running w1 = running w2 -> g_service_provider w1 = g_service_provider w2 ->
  g_callback w1 = g_callback w2 -> ble_thread w1 = ble_thread w2 ->
  control w1 = control w2 -> alive w1 = alive w2 -> stack w1 = stack w2 ->
  trace w1 = trace w2 -> w1 = w2.
Proof. destruct w1, w2; cbn; intros; subst; reflexivity. Qed.

(** The blocks of the lambda, one equation each. *)
Lemma block_L45 reply rn gsp cb su cu ctl os tr :
  step (background reply)
       (mk_world rn gsp cb (thread_of su cu L45_init_apartment) ctl true os tr)
  = Some (mk_world rn gsp cb (thread_of su cu L48_parse_service) ctl true os
                   (tr ++ [init_apartment])).
Proof. reflexivity. Qed.

Lemma block_L48 reply rn gsp cb su cu ctl os tr service_guid :
  parse_guid su = inl service_guid ->
  step (background reply)
       (mk_world rn gsp cb (thread_of su cu L48_parse_service) ctl true os tr)
  = Some (mk_world rn gsp cb
                   (thread_of su cu (L49_parse_characteristic service_guid))
                   ctl true os tr).
Proof.
  intros H. unfold step, thread_step, thread_block. cbn [alive negb ble_thread].
  rewrite H. reflexivity.
Qed.

Lemma block_L49 reply rn gsp cb su cu ctl os tr service_guid char_guid :
  parse_guid cu = inl char_guid ->
  step (background reply)
       (mk_world rn gsp cb
                 (thread_of su cu (L49_parse_characteristic service_guid))
                 ctl true os tr)
  = Some (mk_world rn gsp cb
                   (thread_of su cu (L51_CreateAsync service_guid char_guid))
                   ctl true os tr).
Proof.
  intros H. unfold step, thread_step, thread_block. cbn [alive negb ble_thread].
  rewrite H. reflexivity.
Qed.

Lemma block_L51 rn gsp cb su cu ctl nx sv chs hs adv tr service_guid char_guid :
  step (background Success)
       (mk_world rn gsp cb
                 (thread_of su cu (L51_CreateAsync service_guid char_guid))
                 ctl true (mk_stack nx sv chs hs adv) tr)
  = Some (mk_world rn (Some nx) cb
                   (thread_of su cu (L59_CreateCharacteristicAsync char_guid))
                   ctl true
                   (release_opt gsp (mk_stack (S nx) (nx :: sv) chs hs adv))
                   (tr ++ [CreateAsync service_guid Success])).
Proof. reflexivity. Qed.

Lemma block_L59 rn p cb su cu ctl nx sv chs hs adv tr char_guid :
  step (background Success)
       (mk_world rn (Some p) cb
                 (thread_of su cu (L59_CreateCharacteristicAsync char_guid))
                 ctl true (mk_stack nx sv chs hs adv) tr)
  = Some (mk_world rn (Some p) cb
                   (thread_of su cu
                      (L72_WriteRequested (mk_characteristic p char_guid charParams)))
                   ctl true
                   (mk_stack nx sv (mk_characteristic p char_guid charParams :: chs)
                             hs adv)
                   (tr ++ [CreateCharacteristicAsync p char_guid charParams Success])).
Proof. reflexivity. Qed.

Lemma block_L72 reply rn gsp cb su cu ctl nx sv chs hs adv tr ch :
  step (background reply)
       (mk_world rn gsp cb (thread_of su cu (L72_WriteRequested ch))
                 ctl true (mk_stack nx sv chs hs adv) tr)
  = Some (mk_world rn gsp cb (thread_of su cu L90_StartAdvertising) ctl true
                   (mk_stack nx sv chs (ch :: hs) adv)
                   (tr ++ [WriteRequested_subscribed ch])).
Proof. reflexivity. Qed.

Lemma block_L90 reply rn p cb su cu ctl nx sv chs hs adv tr :
  step (background reply)
       (mk_world rn (Some p) cb (thread_of su cu L90_StartAdvertising)
                 ctl true (mk_stack nx sv chs hs adv) tr)
  = Some (mk_world rn (Some p) cb (thread_of su cu L97_while_running) ctl true
                   (mk_stack nx sv chs hs (p :: adv))
                   ((tr ++ [StartAdvertising p advParams])
                      ++ [OutputDebugString (line "BLE GATT server started")])).
Proof. reflexivity. Qed.

Lemma block_L97_stop reply gsp cb su cu ctl os tr :
  step (background reply)
       (mk_world false gsp cb (thread_of su cu L97_while_running) ctl true os tr)
  = Some (mk_world false gsp cb (thread_of su cu L101_StopAdvertising)
                   ctl true os tr).
Proof. reflexivity. Qed.

Lemma block_L101 reply rn p cb su cu ctl nx sv chs hs adv tr :
  step (background reply)
       (mk_world rn (Some p) cb (thread_of su cu L101_StopAdvertising)
                 ctl true (mk_stack nx sv chs hs adv) tr)
  = Some (mk_world rn None cb (thread_of su cu L108_returned) ctl true
                   (release p
                      (mk_stack nx sv chs hs
                         (filter (fun q => negb (Nat.eqb q p)) adv)))
                   ((tr ++ [StopAdvertising p])
                      ++ [OutputDebugString (line "BLE GATT server stopped")])).
Proof. reflexivity. Qed.

(** A setup in which the stack accepts both requests, from the top of the
    lambda to the polling loop. *)
Lemma setup_runs rn gsp cb su cu ctl nx sv tr service_guid char_guid :
  parse_guid su = inl service_guid -> parse_guid cu = inl char_guid ->
  run (repeat (background Success) 7)
      (mk_world rn gsp cb (thread_of su cu L45_init_apartment) ctl true
                (mk_stack nx sv [] [] []) tr)
  = Some (mk_world rn (Some nx) cb (thread_of su cu L97_while_running) ctl true
            (mk_stack (S nx)
               (services (release_opt gsp (mk_stack (S nx) (nx :: sv) [] [] [])))
               [mk_characteristic nx char_guid charParams]
               [mk_characteristic nx char_guid charParams]
               [nx])
            (tr ++ [init_apartment;
                    CreateAsync service_guid Success;
                    CreateCharacteristicAsync nx char_guid charParams Success;
                    WriteRequested_subscribed
                      (mk_characteristic nx char_guid charParams);
                    StartAdvertising nx advParams;
                    OutputDebugString (line "BLE GATT server started")])).
Proof.
  intros Hsu Hcu. cbn [repeat run].
  rewrite block_L45.
  rewrite (block_L48 _ _ _ _ _ _ _ _ _ _ Hsu).
  rewrite (block_L49 _ _ _ _ _ _ _ _ _ _ _ Hcu).
  rewrite block_L51.
  assert (E : release_opt gsp (mk_stack (S nx) (nx :: sv) [] [] [])
              = mk_stack (S nx)
                  (services (release_opt gsp (mk_stack (S nx) (nx :: sv) [] [] [])))
                  [] [] [])
    by (destruct gsp; reflexivity).
  rewrite E. rewrite block_L59, block_L72, block_L90.
  rewrite <- !app_assoc. reflexivity.
Qed.

(** The blocks of the two entry points, one equation each. *)
Lemma start_from_idle name su cu callback gsp cb os tr :
  step (call_start name su cu callback)
       (mk_world false gsp cb not_a_thread Idle true os tr)
  = Some (mk_world true gsp callback (thread_of su cu L45_init_apartment)
                   Idle true os (tr ++ [thread_started su cu])).
Proof. reflexivity. Qed.

Lemma stop_from_running gsp cb th os tr :
  step call_stop (mk_world true gsp cb th Idle true os tr)
  = Some (mk_world false gsp cb th Stop_L116_join true os tr).
Proof. reflexivity. Qed.

Lemma join_of_returned rn gsp cb su cu os tr :
  step join_returns
       (mk_world rn gsp cb (thread_of su cu L108_returned) Stop_L116_join true os tr)
  = Some (mk_world rn gsp cb not_a_thread Stop_L119_clear true os
                   (tr ++ [thread_joined])).
Proof. reflexivity. Qed.

Lemma return_of_stop rn gsp cb th os tr :
  step stop_returns (mk_world rn gsp cb th Stop_L119_clear true os tr)
  = Some (mk_world rn gsp None th Idle true os tr).
Proof. reflexivity. Qed.

Lemma session_runs name su cu callback service_guid char_guid next tr :
  parse_guid su = inl service_guid -> parse_guid cu = inl char_guid ->
  run (session name su cu callback) (idle_world next tr)
    = Some (idle_world (S next)
              (tr ++ session_events su cu service_guid char_guid next)).
Proof.
  intros Hsu Hcu. unfold session, idle_world.
  cbn [run]. rewrite start_from_idle.
  rewrite run_app, (setup_runs _ _ _ _ _ _ _ _ _ _ _ Hsu Hcu).
  change (services (release_opt None (mk_stack (S next) [next] [] [] [])))
    with [next].
  cbn [run]. rewrite stop_from_running, block_L97_stop, block_L101.
  unfold release, not_of.
  cbn [filter ch_service next_provider services characteristics write_handlers
       advertising negb].
  rewrite !Nat.eqb_refl.
  cbn [filter negb].
  rewrite join_of_returned, return_of_stop.
  unfold session_events. rewrite <- !app_assoc. reflexivity.
Qed.

Lemma sessions_run name su cu callback service_guid char_guid n :
  parse_guid su = inl service_guid -> parse_guid cu = inl char_guid ->
  forall next tr, exists new,
    run (concat (repeat (session name su cu callback) n)) (idle_world next tr)
      = Some (idle_world (n + next) (tr ++ new))
    /\ List.length (filter is_thread_started new) = n
    /\ List.length (filter is_characteristic_created new) = n.
Proof.
  intros Hsu Hcu. induction n as [|n IH]; intros next tr.
  - exists []. cbn. rewrite app_nil_r. auto.
  - pose proof (session_runs name su cu callback _ _ next tr Hsu Hcu) as Hrun1.
    destruct (IH (S next) (tr ++ session_events su cu service_guid char_guid next))
      as (new2 & Hrun2 & Hs2 & Hc2).
    exists (session_events su cu service_guid char_guid next ++ new2).
    cbn [repeat concat]. rewrite run_app, Hrun1, Hrun2.
    rewrite !filter_app, !length_app, Hs2, Hc2, app_assoc.
    replace (n + S next)%nat with (S n + next)%nat by lia. auto.
Qed.

(** C9.  When [stop_ble_server] returns, the flag is clear, no sink is
    stored, there is no thread and the controlling thread is outside the entry
    points.  A call of [start] there changes the world: it sets the flag,
    stores the sink and starts a thread at the top of the lambda, recording
    its start, the process alive; and when the identifiers are well formed
    and the stack accepts both requests, that thread creates a service under
    a handle not used before, with one characteristic and its handler, and
    advertises it.  From the initial world any number of such sessions run
    one after the other, each starting one thread and creating one
    characteristic, and end in the idle state. *)
Theorem C9_restartable_after_stop (su cu : string)
    (Hsu : well_formed_uuid su = true) (Hcu : well_formed_uuid cu = true) :
  (forall w, reachable w -> control w = Stop_L119_clear ->
     step stop_returns w = Some (stop_clear w)
     /\ running (stop_clear w) = false
     /\ g_callback (stop_clear w) = None
     /\ ble_thread (stop_clear w) = not_a_thread
     /\ control (stop_clear w) = Idle
     /\ forall name callback,
          let w2 := start_ble_server name su cu callback (stop_clear w) in
          step (call_start name su cu callback) (stop_clear w) = Some w2
          /\ w2 <> stop_clear w
          /\ running w2 = true
          /\ g_callback w2 = callback
          /\ ble_thread w2 = thread_of su cu L45_init_apartment
          /\ alive w2 = true
          /\ events_since (stop_clear w) w2 = [thread_started su cu]
          /\ exists w3 ch,
               run (repeat (background Success) 7) w2 = Some w3
               /\ ch_service ch = next_provider (stack w)
               /\ g_service_provider w3 = Some (ch_service ch)
               /\ characteristics (stack w3) = [ch]
               /\ write_handlers (stack w3) = [ch]
               /\ advertising (stack w3) = [ch_service ch])
  /\ (forall n name callback, exists w,
        run (concat (repeat (session name su cu callback) n)) initial = Some w
        /\ control w = Idle /\ running w = false /\ g_callback w = None
        /\ ble_thread w = not_a_thread /\ alive w = true
        /\ List.length (filter is_thread_started (trace w)) = n
        /\ List.length (filter is_characteristic_created (trace w)) = n).
Proof.
  destruct (parse_guid_well_formed su Hsu) as [_ [sg Hsg]].
  destruct (parse_guid_well_formed cu Hcu) as [_ [cg Hcg]].
  split.
  - intros w Hreach Hctl.
    destruct (reachable_invariant w Hreach) as (Hal & Hth & Hct & Hsv).
    unfold control_inv in Hct. rewrite Hctl in Hct. destruct Hct as [Hr Ht].
    unfold thread_inv in Hth. rewrite Ht in Hth.
    destruct Hth as (Hc & Hh & Ha).
    destruct w as [rn gsp cb th ctl al os tr]. destruct os as [nx sv chs hs adv].
    cbn in Hal, Hctl, Hr, Ht, Hc, Hh, Ha. subst.
    split; [reflexivity|]. do 4 (split; [reflexivity|]).
    intros name callback.
    split; [reflexivity|]. split; [discriminate|]. do 4 (split; [reflexivity|]).
    split; [apply events_since_app; reflexivity|].
    eexists. exists (mk_characteristic nx cg charParams).
    split; [apply (setup_runs _ _ _ _ _ _ _ _ _ _ _ Hsg Hcg)|].
    cbn. auto 10.
  - intros n name callback.
    destruct (sessions_run name su cu callback sg cg n Hsg Hcg 0%nat [])
      as (new & Hrun & Hs & Hc).
    eexists. split; [exact Hrun|]. cbn. auto 10.
Qed.

Lemma C9_restartable_witness :
  well_formed_uuid demo_service = true
  /\ exists w,
       run (concat (repeat
              (session "presenterd" demo_service demo_characteristic (Some 1%nat)) 3))
           initial = Some w
       /\ List.length (filter is_thread_started (trace w)) = 3%nat.
Proof.
  split; [reflexivity|].
  destruct (proj2 (C9_restartable_after_stop demo_service demo_characteristic
                     eq_refl eq_refl) 3%nat "presenterd" (Some 1%nat))
    as (w & Hrun & _ & _ & _ & _ & _ & Hn & _).
  exists w. split; [exact Hrun|exact Hn].
Defined.

(* ===================================================================== *)
(** ** The buffer of [parse_guid]                                         *)
(* ===================================================================== *)

Lemma well_formed_length s : well_formed_uuid s = true -> strlen s = 36%nat.
Proof.
  unfold well_formed_uuid, is_guid_text, has_guid_layout, strlen. intros H.
  do 9 (apply andb_prop in H as [H _]). now apply Nat.eqb_eq in H.
Qed.

(** C10, on the code.  For a well-formed identifier the buffer of line 30
    has 36 units, the conversion of line 31 with source length -1 produces
    37 (the 36 characters and the terminator), and [MultiByteToWideChar]
    returns 0: it reports that the buffer is too small.  It writes the 36
    characters, within the buffer, and [parse_guid], which drops the returned
    value, hands them to [winrt::guid]. *)
Theorem C10_conversion_buffer_one_short (uuid_cstr : string)
    (Hwf : well_formed_uuid uuid_cstr = true) :
  List.length (wstring_fill (strlen uuid_cstr) 0) = 36%nat
  /\ List.length (utf8_decode (c_chars uuid_cstr ++ [0])) = 37%nat
  /\ fst (parse_guid_conversion uuid_cstr) = 0%Z
  /\ snd (parse_guid_conversion uuid_cstr) = c_chars uuid_cstr
  /\ parse_guid uuid_cstr = winrt_guid (c_chars uuid_cstr).
Proof.
  pose proof (well_formed_length _ Hwf) as Hlen.
  pose proof (guid_text_low _ Hwf) as Hlow.
  assert (Hne : c_chars uuid_cstr <> []).
  { unfold strlen in Hlen. intros E. rewrite E in Hlen. discriminate. }
  split; [unfold wstring_fill; now rewrite repeat_length|].
  split.
  - rewrite utf8_decode_low by assumption.
    change (utf8_decode [0]) with [0]. rewrite length_app.
    unfold strlen in Hlen. rewrite Hlen. reflexivity.
  - rewrite (parse_guid_conversion_ascii _ Hlow Hne).
    split; [reflexivity|]. split; [reflexivity|].
    apply parse_guid_well_formed, Hwf.
Qed.

Lemma C10_conversion_witness :
  well_formed_uuid demo_service = true
  /\ fst (parse_guid_conversion demo_service) = 0%Z.
Proof.
  split; [reflexivity|].
  exact (proj1 (proj2 (proj2
    (C10_conversion_buffer_one_short demo_service eq_refl)))).
Defined.

(* ===================================================================== *)
(** ** [stop_ble_server] returns                                          *)
(* ===================================================================== *)

(** With the flag clear every block of the lambda is enabled and brings it
    closer to its return. *)
Lemma thread_progress reply w su cu pc :
  alive w = true -> running w = false -> ble_thread w = thread_of su cu pc ->
  pc <> L108_returned ->
  exists w' pc',
    step (background reply) w = Some w'
    /\ ble_thread w' = thread_of su cu pc'
    /\ (steps_left pc' < steps_left pc)%nat.
Proof.
  intros Hal Hr Ht Hpc.
  unfold step, thread_step. rewrite Hal, Ht. cbn [negb].
  destruct w as [rn gsp cb th ctl al os tr]. cbn in Hr, Ht. subst rn th.
  destruct pc; try (exfalso; apply Hpc; reflexivity); unfold thread_block;
    repeat match goal with
    | |- context [parse_guid ?s] => destruct (parse_guid s)
    | |- context [BluetoothError_eqb ?a ?b] => destruct (BluetoothError_eqb a b)
    end;
    destruct gsp; cbn -[line];
    eexists _, _; (split; [reflexivity|]); (split; [reflexivity|]); cbn; lia.
Qed.

Lemma thread_returns n : forall w su cu pc rs,
  invariant w -> running w = false -> ble_thread w = thread_of su cu pc ->
  (steps_left pc <= n)%nat -> (n <= List.length rs)%nat ->
  exists k w',
    (k <= n)%nat
    /\ run (map background (firstn k rs)) w = Some w'
    /\ invariant w'
    /\ ble_thread w' = thread_of su cu L108_returned
    /\ running w' = false /\ control w' = control w
    /\ g_callback w' = g_callback w.
Proof.
  induction n as [|n IH]; intros w su cu pc rs Hinv Hr Ht Hpc Hrs.
  - exists 0%nat, w. destruct pc; cbn in Hpc; try lia.
    cbn. split; [lia|]. auto 10.
  - assert (Hdec : pc = L108_returned \/ pc <> L108_returned)
      by (destruct pc; auto; right; discriminate).
    destruct Hdec as [->|Hne].
    + exists 0%nat, w. cbn. split; [lia|]. auto 10.
    + destruct rs as [|r rs]; [cbn in Hrs; lia|].
      destruct (thread_progress r w su cu pc (proj1 Hinv) Hr Ht Hne)
        as (w1 & pc1 & Hs & Ht1 & Hlt).
      pose proof (invariant_step _ _ _ Hinv Hs) as Hinv1.
      assert (Hs' : thread_step r w = Some w1).
      { unfold step in Hs. rewrite (proj1 Hinv) in Hs. exact Hs. }
      destruct (thread_step_frame _ _ _ Hs') as (Hr1 & Hcb1 & Hc1 & _).
      destruct (IH w1 su cu pc1 rs Hinv1 ltac:(congruence) Ht1 ltac:(lia)
                  ltac:(cbn in Hrs; lia))
        as (k & w' & Hk & Hrun & Hinv' & Ht' & Hr' & Hc' & Hcb').
      exists (S k), w'. cbn [firstn map run]. rewrite Hs.
      split; [lia|]. split; [assumption|]. split; [assumption|].
      split; [assumption|]. split; [assumption|]. split; congruence.
Qed.

(** X1.  [stop] returns.  From any reachable world where the flag is set
    and the controlling thread is outside the entry points, whatever the
    stack answers to the requests still to be made, the lambda returns
    within nine of its blocks after the flag is cleared; the join and the
    return of [stop] follow, and leave the idle state: flag clear, no sink,
    no thread, the process alive. *)
Theorem X1_stop_returns (w : World) (rs : list BluetoothError)
    (Hreach : reachable w) (Hidle : control w = Idle)
    (Hrunning : running w = true) (Hrs : (9 <= List.length rs)%nat) :
  exists k w',
    (k <= 9)%nat
    /\ run (call_stop :: map background (firstn k rs)
              ++ [join_returns; stop_returns]) w = Some w'
    /\ control w' = Idle /\ running w' = false /\ g_callback w' = None
    /\ ble_thread w' = not_a_thread /\ alive w' = true.
Proof.
  pose proof (reachable_invariant w Hreach) as Hinv.
  assert (Hs : step call_stop w = Some (stop_enter w))
    by (unfold step; now rewrite (proj1 Hinv), Hidle).
  pose proof (invariant_step _ _ _ Hinv Hs) as Hinv1.
  assert (E : stop_enter w = set_control Stop_L116_join (set_running false w))
    by (unfold stop_enter; now rewrite Hrunning).
  assert (Hfinish : forall w2,
            alive w2 = true -> control w2 = Stop_L116_join ->
            has_returned (ble_thread w2) = true ->
            exists w', run [join_returns; stop_returns] w2 = Some w'
              /\ control w' = Idle /\ running w' = running w2
              /\ g_callback w' = None
              /\ ble_thread w' = not_a_thread /\ alive w' = true).
  { intros w2 Hal2 Hc2 Hret.
    destruct w2 as [rn gsp cb th ctl al os tr]. cbn in Hal2, Hc2, Hret. subst.
    destruct th as [|su cu pc]; [|destruct pc; try discriminate Hret];
      eexists; (split; [reflexivity|]); cbn; auto 10. }
  destruct (ble_thread w) as [|su cu pc] eqn:Et.
  - destruct (Hfinish (stop_enter w)) as (w' & Hrun & Hc & Hr & Hcb & Hth & Hal).
    + apply Hinv1.
    + rewrite E. reflexivity.
    + rewrite E. cbn. now rewrite Et.
    + exists 0%nat, w'. cbn [firstn map app run]. rewrite Hs.
      rewrite E in Hr. cbn in Hr.
      split; [lia|]. auto 10.
  - destruct (thread_returns 9 (stop_enter w) su cu pc rs Hinv1)
      as (k & w2 & Hk & Hrun2 & Hinv2 & Ht2 & Hr2 & Hc2 & _).
    + rewrite E. reflexivity.
    + rewrite E. cbn. exact Et.
    + destruct pc; cbn; lia.
    + exact Hrs.
    + destruct (Hfinish w2) as (w' & Hrun & Hc & Hr & Hcb & Hth & Hal).
      * apply Hinv2.
      * rewrite Hc2, E. reflexivity.
      * now rewrite Ht2.
      * exists k, w'. cbn [run]. rewrite Hs, run_app, Hrun2.
        split; [assumption|]. split; [assumption|]. split; [assumption|].
        split; [congruence|]. auto.
Qed.

Lemma X1_stop_returns_witness :
  reachable serving_world
  /\ exists k w',
       (k <= 9)%nat
       /\ run (call_stop :: map background (firstn k (repeat OtherError 9))
                 ++ [join_returns; stop_returns]) serving_world = Some w'
       /\ running w' = false.
Proof.
  split; [exact serving_world_reachable|].
  destruct (X1_stop_returns serving_world (repeat OtherError 9)
              serving_world_reachable eq_refl eq_refl (le_n 9))
    as (k & w' & Hk & Hrun & _ & Hr & _).
  exists k, w'. split; [exact Hk|]. split; [exact Hrun|exact Hr].
Defined.

(* ===================================================================== *)
(** ** What each step records                                             *)
(* ===================================================================== *)

Lemma thread_step_lambda_events reply w w' :
  thread_step reply w = Some w' ->
  exists new, trace w' = trace w ++ new
              /\ Forall (fun e => is_lambda_event e = true) new.
Proof.
  unfold thread_step. intros H.
  destruct w as [rn gsp cb th ctl al os tr]. destruct os as [nx sv chs hs adv].
  cbn [ble_thread] in H.
  destruct th as [|su cu pc]; [discriminate|].
  destruct pc; unfold thread_block in H;
    repeat match type of H with
    | context [parse_guid ?s] => destruct (parse_guid s)
    | context [BluetoothError_eqb ?a ?b] => destruct (BluetoothError_eqb a b)
    end;
    destruct gsp as [p|]; destruct rn; cbn in H;
    try discriminate; inversion H; subst; clear H; cbn;
    eexists;
    (split;
      [ rewrite <- ?app_assoc; cbn;
        first [reflexivity | symmetry; apply app_nil_r]
      | repeat constructor ]).
Qed.

Lemma step_adds_events l w w' :
  step l w = Some w' -> exists new, trace w' = trace w ++ new /\ step_adds l w new.
Proof.
  intros H. unfold step in H.
  destruct (alive w); [|discriminate]. cbn [negb] in H.
  destruct l; cbn [step_adds].
  - destruct (control w); try discriminate. inversion H; subst; clear H.
    unfold start_ble_server.
    destruct (running w); [exists []; split; [now rewrite app_nil_r|auto]|].
    destruct w as [rn gsp cb th ctl al os tr]; destruct th; cbn;
      [eexists; split; [reflexivity|auto]
      |exists []; split; [now rewrite app_nil_r|auto]].
  - destruct (control w); try discriminate. inversion H; subst; clear H.
    unfold stop_enter. destruct (running w); exists [];
      (split; [now rewrite app_nil_r|reflexivity]).
  - destruct (control w); try discriminate. unfold stop_join in H.
    destruct w as [rn gsp cb th ctl al os tr]; cbn in *.
    destruct th as [|su cu pc]; [|destruct pc]; inversion H; subst; clear H; cbn;
      first [ eexists; split; [reflexivity|auto]
            | exists []; split; [now rewrite app_nil_r|auto] ].
  - destruct (control w); try discriminate. inversion H; subst; clear H.
    exists []. cbn. split; [now rewrite app_nil_r|reflexivity].
  - eapply thread_step_lambda_events; eassumption.
  - destruct (write_deliverable w); [|discriminate]. inversion H; subst; clear H.
    exists (handler_events value w). split; [apply handler_trace|reflexivity].
Qed.

Lemma count_events_app f a b :
  count_events f (a ++ b) = (count_events f a + count_events f b)%nat.
Proof. unfold count_events. now rewrite filter_app, length_app. Qed.



(* ===================================================================== *)
(** ** Write requests and their acknowledgement                           *)
(* ===================================================================== *)




(* ===================================================================== *)
(** ** The sink of a run                                                  *)
(* ===================================================================== *)

Lemma step_adds_sink_calls l w new :
  step_adds l w new ->
  sink_calls new
  = match l, g_callback w with
    | peer_write value, Some callback =>
        [callback_called callback value (List.length value)]
    | _, _ => []
    end.
Proof.
  intros H.
  assert (Hlam : forall evs, Forall (fun e => is_lambda_event e = true) evs ->
                             sink_calls evs = []).
  { induction 1 as [|e t He _ IH]; [reflexivity|].
    unfold sink_calls in *. cbn. rewrite IH.
    destruct e; try discriminate He; reflexivity. }
  destruct l; cbn [step_adds] in H.
  - destruct H as [->| ->]; reflexivity.
  - subst. reflexivity.
  - destruct H as [->| ->]; reflexivity.
  - subst. reflexivity.
  - now apply Hlam.
  - subst. unfold handler_events. destruct (g_callback w); reflexivity.
Qed.

Lemma holds_sink_step sink l w w' :
  holds_sink sink w -> is_stop_returns l = false -> step l w = Some w' ->
  holds_sink sink w'.
Proof.
  intros [Hcb Hrun] Hl H. unfold step in H.
  destruct (alive w); [|discriminate]. cbn [negb] in H.
  destruct l; try discriminate Hl.
  - destruct (control w) eqn:Ec; try discriminate. inversion H; subst; clear H.
    destruct Hrun as [Hr|Hc]; [|contradiction].
    rewrite start_noop_when_running by assumption.
    split; [reflexivity|left; assumption].
  - destruct (control w) eqn:Ec; try discriminate. inversion H; subst; clear H.
    destruct Hrun as [Hr|Hc]; [|contradiction].
    unfold stop_enter. rewrite Hr. cbn.
    split; [reflexivity|right; discriminate].
  - destruct (control w) eqn:Ec; try discriminate. unfold stop_join in H.
    destruct w as [rn gsp cb th ctl al os tr]; cbn in *.
    destruct th as [|su cu pc]; [|destruct pc]; inversion H; subst; clear H;
      (split; [reflexivity|right; discriminate]).
  - destruct (thread_step_frame _ _ _ H) as (Hr' & Hcb' & Hc' & _).
    split; [congruence|]. rewrite Hr', Hc'. exact Hrun.
  - destruct (write_deliverable w); [|discriminate]. inversion H; subst; clear H.
    pose proof (handler_frame value w) as F. cbv zeta in F.
    destruct F as (F1 & _ & F3 & _ & F5 & _).
    unfold holds_sink. rewrite F1, F3, F5. auto.
Qed.

Lemma holds_sink_run sink ls : forall w w',
  holds_sink sink w -> Forall (fun l => is_stop_returns l = false) ls ->
  run ls w = Some w' ->
  holds_sink sink w'
  /\ forall e, In e (sink_calls (events_since w w')) ->
       exists callback value,
         sink = Some callback /\ In (peer_write value) ls
         /\ e = callback_called callback value (List.length value).
Proof.
  induction ls as [|l ls IH]; cbn [run]; intros w w' Hh Hls H.
  - inversion H; subst. split; [assumption|].
    unfold events_since. rewrite skipn_all. intros e [].
  - inversion Hls as [|? ? Hl Hls']; subst.
    destruct (step l w) as [w1|] eqn:E; [|discriminate].
    pose proof (holds_sink_step _ _ _ _ Hh Hl E) as Hh1.
    destruct (IH w1 w' Hh1 Hls' H) as [Hh' Hcalls].
    split; [assumption|].
    destruct (step_adds_events _ _ _ E) as (new & Hnew & Hadds).
    destruct (run_extends _ _ _ H) as [rest Hrest].
    rewrite (events_since_app _ _ _ Hrest) in Hcalls.
    assert (Htr : trace w' = trace w ++ (new ++ rest))
      by (now rewrite Hrest, Hnew, app_assoc).
    rewrite (events_since_app _ _ _ Htr), sink_calls_app.
    rewrite (step_adds_sink_calls _ _ _ Hadds).
    intros e Hin. apply in_app_or in Hin as [Hin|Hin].
    + destruct l; try contradiction.
      destruct Hh as [Hcb _]. rewrite Hcb in Hin.
      destruct sink as [callback|]; [|contradiction].
      destruct Hin as [<-|[]].
      exists callback, value. split; [reflexivity|]. split; [left; reflexivity|].
      reflexivity.
    + destruct (Hcalls e Hin) as (callback & value & Hs & Hv & He).
      exists callback, value. split; [assumption|]. split; [right; assumption|].
      assumption.
Qed.

(** X3.  The sink of a run is the one given to the [start] that began it.
    After a call of [start] made with the flag clear, and until [stop]
    returns, the stored sink is the one that call was given, whatever is
    called in between; and every sink call recorded in that time passes the
    bytes of one of the write requests of the execution, with their
    count, to that sink. *)
Theorem X3_sink_fixed_for_the_run
    (w : World) (name su cu : string) (sink : DataCallback)
    (ls : list Label) (w' : World)
    (Hstopped : running w = false)
    (Hls : Forall (fun l => is_stop_returns l = false) ls)
    (Hrun : run ls (start_ble_server name su cu sink w) = Some w') :
  g_callback w' = sink
  /\ forall e,
       In e (sink_calls (events_since (start_ble_server name su cu sink w) w')) ->
       exists callback value,
         sink = Some callback /\ In (peer_write value) ls
         /\ e = callback_called callback value (List.length value).
Proof.
  assert (Hh : holds_sink sink (start_ble_server name su cu sink w)).
  { unfold start_ble_server. rewrite Hstopped.
    destruct w as [rn gsp cb th ctl al os tr]; destruct th; cbn;
      (split; [reflexivity|left; reflexivity]). }
  destruct (holds_sink_run sink ls _ w' Hh Hls Hrun) as [[Hcb _] Hcalls].
  split; assumption.
Qed.

Lemma X3_sink_fixed_witness :
  running initial = false
  /\ g_callback
       (world_after
          (serving_labels (Some 1%nat)
             ++ [call_start "again" demo_service demo_characteristic (Some 2%nat);
                 peer_write [Byte.x01]])) = Some 1%nat.
Proof.
  split; [reflexivity|].
  refine (proj1 (X3_sink_fixed_for_the_run initial "presenterd" demo_service
                   demo_characteristic (Some 1%nat)
                   (repeat (background Success) 7
                      ++ [call_start "again" demo_service demo_characteristic
                            (Some 2%nat);
                          peer_write [Byte.x01]])
                   _ eq_refl _ _)).
  - repeat constructor.
  - vm_compute. reflexivity.
Defined.

(* ===================================================================== *)
(** ** Threads, advertisements and the flag                               *)
(* ===================================================================== *)

Lemma accounting_initial : accounting initial.
Proof. repeat split; try reflexivity; try discriminate. constructor. Qed.

Ltac count_events_tac :=
  unfold count_events in *;
  rewrite ?filter_app, ?length_app in *; cbn in *; try lia.

Lemma accounting_step l w w' :
  invariant w -> accounting w -> step l w = Some w' -> accounting w'.
Proof.
  intros Hinv (Hthreads & Hadv & Hflag & Hsink & Hopen) H.
  pose proof Hinv as (Hal & Hth & Hct & _).
  unfold step in H. rewrite Hal in H. cbn [negb] in H.
  unfold control_inv in Hct.
  destruct l.
  - (* call_start *)
    destruct (control w) eqn:Ec; try discriminate. inversion H; subst; clear H.
    unfold start_ble_server.
    destruct (running w) eqn:Er;
      [unfold accounting; rewrite ?Ec, ?Er; auto 10|].
    specialize (Hct eq_refl).
    destruct w as [rn gsp cb th ctl al os tr]; cbn in *; subst.
    repeat split; cbn; try discriminate; auto.
    + count_events_tac.
    + count_events_tac.
    + apply Forall_app; split; [assumption|repeat constructor].
  - (* call_stop *)
    destruct (control w) eqn:Ec; try discriminate. inversion H; subst; clear H.
    unfold stop_enter. destruct (running w) eqn:Er; cbn [negb];
      [|unfold accounting; rewrite ?Ec, ?Er; auto 10].
    destruct w as [rn gsp cb th ctl al os tr]; cbn in *; subst.
    repeat split; cbn; try discriminate; auto.
  - (* join_returns *)
    destruct (control w) eqn:Ec; try discriminate. unfold stop_join in H.
    destruct w as [rn gsp cb th ctl al os tr]; cbn in *; subst.
    destruct th as [|su cu pc]; [|destruct pc]; inversion H; subst; clear H;
      repeat split; cbn; try discriminate; auto.
    + count_events_tac.
    + count_events_tac.
    + apply Forall_app; split; [assumption|repeat constructor].
  - (* stop_returns *)
    destruct (control w) eqn:Ec; try discriminate. inversion H; subst; clear H.
    destruct w as [rn gsp cb th ctl al os tr]; cbn in *; subst.
    repeat split; cbn; auto.
  - (* background *)
    unfold thread_step in H.
    destruct w as [rn gsp cb th ctl al os tr]. destruct os as [nx sv chs hs adv].
    unfold thread_inv, nothing_active in Hth.
    cbn [ble_thread running control alive stack trace g_service_provider
         g_callback characteristics write_handlers advertising services
         next_provider] in *.
    destruct th as [|su cu pc]; [discriminate|].
    destruct pc; unfold thread_block in H;
      repeat match type of H with
      | context [parse_guid ?s] => destruct (parse_guid s)
      | context [BluetoothError_eqb ?a ?b] => destruct (BluetoothError_eqb a b)
      end;
      destruct gsp as [p|]; destruct rn;
      cbn in H; try discriminate; inversion H; subst; clear H;
      repeat match goal with
      | Hx : _ /\ _ |- _ => destruct Hx
      | Hx : exists _, _ |- _ => destruct Hx
      end; subst;
      repeat match goal with
      | Hx : Some _ = Some _ |- _ => inversion Hx; subst; clear Hx
      | Hx : None = Some _ |- _ => discriminate Hx
      end;
      unfold accounting; cbn; unfold not_of; rewrite ?Nat.eqb_refl; cbn;
      (split; [count_events_tac|]); (split; [count_events_tac|]);
      (split; [auto|]); (split; [auto|]);
      repeat match goal with
      | |- Forall _ (_ ++ _) => apply Forall_app; split
      | |- Forall _ (_ :: _) => constructor
      | |- Forall _ [] => constructor
      end; auto; try exact I; cbn; auto.
  - (* peer_write *)
    destruct (write_deliverable w); [|discriminate]. inversion H; subst; clear H.
    pose proof (handler_frame value w) as F. cbv zeta in F.
    destruct F as (F1 & _ & F3 & F4 & F5 & _ & F7).
    unfold accounting. rewrite F1, F3, F4, F5, F7, handler_trace.
    repeat split; auto.
    + rewrite !count_events_app. rewrite Hthreads.
      destruct (g_callback w); cbn; lia.
    + rewrite !count_events_app. rewrite Hadv.
      destruct (g_callback w); cbn; lia.
    + apply Forall_app; split; [assumption|].
      destruct (g_callback w); repeat constructor.
Qed.

Lemma reachable_accounting w : reachable w -> accounting w.
Proof.
  induction 1 as [|l w w' Hreach IH Hstep]; [apply accounting_initial|].
  eapply accounting_step; [|exact IH|exact Hstep].
  now apply reachable_invariant.
Qed.

(** X4.  The process is never terminated, and no thread is lost: in
    every reachable world the process is alive (no assignment to a joinable
    [ble_thread], no use of a null service handle), the threads started are
    the threads joined plus the one still joinable, outside [stop] the flag is
    set exactly when [ble_thread] is joinable, and inside [stop] it is
    clear. *)
Theorem X4_threads_accounted (w : World) (Hreach : reachable w) :
  alive w = true
  /\ count_events is_thread_started (trace w)
     = (count_events is_thread_joined (trace w)
        + if joinable (ble_thread w) then 1 else 0)%nat
  /\ (control w = Idle -> running w = joinable (ble_thread w))
  /\ (control w <> Idle -> running w = false).
Proof.
  destruct (reachable_invariant w Hreach) as (Hal & _ & Hct & _).
  destruct (reachable_accounting w Hreach) as (Hthreads & _ & Hflag & _).
  unfold control_inv in Hct.
  split; [assumption|]. split; [assumption|]. split.
  - intros Hidle. rewrite Hidle in Hct.
    destruct (running w) eqn:Er.
    + symmetry. now apply Hflag.
    + now rewrite Hct.
  - intros Hne. destruct (control w); [contradiction|assumption|apply Hct].
Qed.

Lemma X4_threads_accounted_witness :
  reachable tearing_down_world
  /\ count_events is_thread_started (trace tearing_down_world) = 1%nat.
Proof.
  assert (H : reachable tearing_down_world).
  { apply (run_reachable
             (serving_labels (Some 1%nat) ++ [call_stop; background Success])
             initial); [constructor | vm_compute; reflexivity]. }
  split; [exact H|].
  exact (proj1 (proj2 (X4_threads_accounted tearing_down_world H))).
Defined.

(** X5.  Advertising is bracketed: in every reachable world the
    advertisements started are those stopped plus the one the stack still
    holds, of which there is at most one and only while the lambda is in its
    loop or about to tear down; and every advertisement was started
    connectable and discoverable. *)
Theorem X5_advertising_bracketed (w : World) (Hreach : reachable w) :
  count_events is_StartAdvertising (trace w)
    = (count_events is_StopAdvertising (trace w)
       + List.length (advertising (stack w)))%nat
  /\ (List.length (advertising (stack w)) <= 1)%nat
  /\ (advertising (stack w) <> [] ->
      exists su cu,
        ble_thread w = thread_of su cu L97_while_running
        \/ ble_thread w = thread_of su cu L101_StopAdvertising)
  /\ forall service p,
       In (StartAdvertising service p) (trace w) ->
       IsConnectable p = true /\ IsDiscoverable p = true.
Proof.
  destruct (reachable_invariant w Hreach) as (_ & Hth & _ & _).
  destruct (reachable_accounting w Hreach) as (_ & Hadv & _ & _ & Hopen).
  split; [assumption|].
  unfold thread_inv, nothing_active in Hth.
  assert (Hshape :
    (List.length (advertising (stack w)) <= 1)%nat
    /\ (advertising (stack w) <> [] ->
        exists su cu,
          ble_thread w = thread_of su cu L97_while_running
          \/ ble_thread w = thread_of su cu L101_StopAdvertising)).
  { destruct (ble_thread w) as [|su cu pc]; [|destruct pc];
      repeat match goal with
      | H : _ /\ _ |- _ => destruct H
      | H : exists _, _ |- _ => destruct H
      end;
      match goal with
      | H : advertising _ = _ |- _ => rewrite H
      end; cbn; (split; [lia|]); intros Hne;
      solve [ contradiction | eauto ]. }
  destruct Hshape as [Hone Hwhere].
  split; [assumption|]. split; [assumption|].
  intros service p Hin. rewrite Forall_forall in Hopen.
  exact (Hopen _ Hin).
Qed.

Lemma X5_advertising_bracketed_witness :
  reachable serving_world
  /\ count_events is_StartAdvertising (trace serving_world)
     = (count_events is_StopAdvertising (trace serving_world)
        + List.length (advertising (stack serving_world)))%nat.
Proof.
  split; [exact serving_world_reachable|].
  exact (proj1 (X5_advertising_bracketed serving_world serving_world_reachable)).
Defined.

(** X6.  Outside a run nothing is exposed.  In every reachable world where
    the flag is clear and the controlling thread is outside the entry
    points, no sink is stored, there is no thread, the stack holds no
    characteristic, handler or advertisement of the process, no write
    request can reach the handler and the lambda has no block to run. *)
Theorem X6_idle_is_silent (w : World) (Hreach : reachable w)
    (Hidle : control w = Idle) (Hstopped : running w = false) :
  g_callback w = None
  /\ ble_thread w = not_a_thread
  /\ nothing_active w
  /\ (forall value, step (peer_write value) w = None)
  /\ (forall reply, step (background reply) w = None).
Proof.
  destruct (reachable_invariant w Hreach) as (Hal & Hth & Hct & _).
  destruct (reachable_accounting w Hreach) as (_ & _ & _ & Hsink & _).
  unfold control_inv in Hct. rewrite Hidle in Hct. specialize (Hct Hstopped).
  unfold thread_inv in Hth. rewrite Hct in Hth.
  split; [now apply Hsink|]. split; [assumption|]. split; [assumption|].
  destruct Hth as (_ & Hh & _).
  split.
  - intros value. unfold step, write_deliverable. rewrite Hal, Hh. reflexivity.
  - intros reply. unfold step, thread_step. rewrite Hal, Hct. reflexivity.
Qed.

Lemma X6_idle_is_silent_witness :
  reachable (world_after
               (session "presenterd" demo_service demo_characteristic (Some 1%nat)))
  /\ step (peer_write [Byte.x01])
          (world_after
             (session "presenterd" demo_service demo_characteristic (Some 1%nat)))
     = None.
Proof.
  assert (H : reachable
                (world_after
                   (session "presenterd" demo_service demo_characteristic
                      (Some 1%nat)))).
  { apply (run_reachable
             (session "presenterd" demo_service demo_characteristic (Some 1%nat))
             initial); [constructor | vm_compute; reflexivity]. }
  split; [exact H|].
  refine (proj1 (proj2 (proj2 (proj2 (X6_idle_is_silent _ H _ _)))) [Byte.x01]);
    vm_compute; reflexivity.
Defined.

(* ===================================================================== *)
(** ** The service handle                                                 *)
(* ===================================================================== *)

Lemma leaked_step p l w w' :
  leaked p w -> is_call_start l = false -> step l w = Some w' -> leaked p w'.
Proof.
  intros (Hreach & Hgsp & Hret) Hl H.
  split; [eapply reachable_step; eassumption|].
  unfold step in H. destruct (alive w); [|discriminate]. cbn [negb] in H.
  destruct l; try discriminate Hl.
  - destruct (control w); try discriminate. inversion H; subst; clear H.
    unfold stop_enter. destruct (running w); cbn; auto.
  - destruct (control w); try discriminate. unfold stop_join in H.
    destruct w as [rn gsp cb th ctl al os tr]; cbn in *.
    destruct th as [|su cu pc]; [|destruct pc]; inversion H; subst; clear H;
      cbn; auto.
  - destruct (control w); try discriminate. inversion H; subst; clear H.
    cbn. auto.
  - unfold thread_step in H.
    destruct (ble_thread w) as [|su cu pc]; [discriminate|].
    destruct pc; try discriminate Hret. cbn in H. discriminate.
  - destruct (write_deliverable w); [|discriminate]. inversion H; subst; clear H.
    pose proof (handler_frame value w) as F. cbv zeta in F.
    destruct F as (_ & F2 & _ & F4 & _). rewrite F2, F4. auto.
Qed.

Lemma leaked_run p ls : forall w w',
  leaked p w -> Forall (fun l => is_call_start l = false) ls ->
  run ls w = Some w' -> leaked p w'.
Proof.
  induction ls as [|l ls IH]; simpl; intros w w' Hl Hls H.
  - inversion H; subst; assumption.
  - inversion Hls; subst.
    destruct (step l w) as [w1|] eqn:E; [|discriminate].
    eapply IH; [|eassumption|eassumption].
    eapply leaked_step; eassumption.
Qed.

(** X7.  A failed characteristic request leaves the service behind.  When
    the stack answers the request of line 64 with an error, the lambda
    returns without touching [g_service_provider]: the handle and the
    service stay, through [stop] and after its return, in every execution
    that does not call [start] again. *)
Theorem X7_failed_characteristic_keeps_service
    (w : World) (su cu : string) (char_guid : guid) (reply : BluetoothError)
    (Hreach : reachable w)
    (Hthread : ble_thread w = thread_of su cu (L59_CreateCharacteristicAsync char_guid))
    (Hfail : reply <> Success) :
  exists provider w',
    g_service_provider w = Some provider
    /\ step (background reply) w = Some w'
    /\ forall ls w'',
         Forall (fun l => is_call_start l = false) ls ->
         run ls w' = Some w'' ->
         g_service_provider w'' = Some provider
         /\ services (stack w'') = [provider].
Proof.
  pose proof (reachable_invariant w Hreach) as (Hal & Hth & _ & _).
  unfold thread_inv in Hth. rewrite Hthread in Hth. destruct Hth as [_ Hgsp].
  destruct (g_service_provider w) as [p|] eqn:Egsp; [|contradiction].
  assert (Hne : BluetoothError_eqb reply Success = false)
    by (destruct reply; try reflexivity; contradiction).
  assert (Hstep : exists w',
            step (background reply) w = Some w'
            /\ g_service_provider w' = Some p
            /\ has_returned (ble_thread w') = true).
  { unfold step, thread_step. rewrite Hal, Hthread. cbn [negb].
    unfold thread_block. rewrite Egsp, Hne. cbn [negb].
    eexists. split; [reflexivity|]. cbn. rewrite Egsp. auto. }
  destruct Hstep as (w' & Hs & Hgsp' & Hret').
  exists p, w'. split; [reflexivity|]. split; [assumption|].
  intros ls w'' Hls Hrun.
  assert (Hl : leaked p w'').
  { eapply leaked_run; [|eassumption|eassumption].
    split; [eapply reachable_step; eassumption|]. auto. }
  destruct Hl as (Hreach'' & Hgsp'' & _).
  split; [assumption|].
  destruct (reachable_invariant w'' Hreach'') as (_ & _ & _ & Hsv).
  unfold services_inv in Hsv. rewrite Hgsp'' in Hsv. apply Hsv.
Qed.

Lemma X7_failed_characteristic_witness :
  reachable requesting_characteristic_world
  /\ exists w'',
       run [background OtherError; call_stop; join_returns; stop_returns]
           requesting_characteristic_world = Some w''
       /\ services (stack w'') = [0%nat].
Proof.
  split; [exact requesting_characteristic_world_reachable|].
  destruct (X7_failed_characteristic_keeps_service
              requesting_characteristic_world demo_service demo_characteristic
              (mk_guid 65505 0 4096 [128; 0; 0; 128; 95; 155; 52; 251])
              OtherError requesting_characteristic_world_reachable eq_refl
              ltac:(discriminate))
    as (p & w' & Hp & Hs & Hkeep).
  assert (Ep : p = 0%nat) by (vm_compute in Hp; congruence). subst p.
  assert (Hrun : exists w'',
            run [call_stop; join_returns; stop_returns] w' = Some w'').
  { vm_compute in Hs. inversion Hs; subst. eexists. vm_compute. reflexivity. }
  destruct Hrun as [w'' Hrun].
  exists w''. split.
  - cbn [run]. rewrite Hs. exact Hrun.
  - refine (proj2 (Hkeep _ w'' _ Hrun)). repeat constructor.
Defined.

(** X8.  The teardown releases everything.  When the lambda is at line 101
    in a reachable world, its last block stops the advertisement, clears
    [g_service_provider] and logs; after it the handle is null and the stack
    holds no service, characteristic, handler or advertisement of the
    process. *)
Theorem X8_teardown_releases_service
    (w : World) (su cu : string) (reply : BluetoothError)
    (Hreach : reachable w)
    (Hthread : ble_thread w = thread_of su cu L101_StopAdvertising) :
  exists provider w',
    g_service_provider w = Some provider
    /\ step (background reply) w = Some w'
    /\ events_since w w'
       = [StopAdvertising provider;
          OutputDebugString (line "BLE GATT server stopped")]
    /\ ble_thread w' = thread_of su cu L108_returned
    /\ g_service_provider w' = None
    /\ services (stack w') = []
    /\ nothing_active w'.
Proof.
  pose proof (reachable_invariant w Hreach) as (Hal & Hth & _ & Hsv).
  unfold thread_inv in Hth. rewrite Hthread in Hth.
  destruct Hth as (ch & Hgsp & Hc & Hh & Ha).
  unfold services_inv in Hsv. rewrite Hgsp in Hsv. destruct Hsv as [Hs _].
  destruct w as [rn gsp cb th ctl al os tr]. destruct os as [nx sv chs hs adv].
  cbn in Hal, Hthread, Hgsp, Hc, Hh, Ha, Hs. subst.
  exists (ch_service ch). eexists.
  split; [reflexivity|]. split; [apply block_L101|].
  split; [apply events_since_app; cbn [trace]; now rewrite <- app_assoc|].
  unfold nothing_active, release, not_of.
  cbn [ble_thread g_service_provider stack services characteristics
       write_handlers advertising filter ch_service].
  rewrite !Nat.eqb_refl. cbn. auto 10.
Qed.

Lemma X8_teardown_witness :
  reachable tearing_down_world
  /\ exists w', step (background Success) tearing_down_world = Some w'
                /\ services (stack w') = [].
Proof.
  assert (H : reachable tearing_down_world).
  { apply (run_reachable
             (serving_labels (Some 1%nat) ++ [call_stop; background Success])
             initial); [constructor | vm_compute; reflexivity]. }
  split; [exact H|].
  destruct (X8_teardown_releases_service tearing_down_world demo_service
              demo_characteristic Success H eq_refl)
    as (p & w' & _ & Hs & _ & _ & _ & Hsv & _).
  exists w'. split; [exact Hs|exact Hsv].
Defined.

(* ===================================================================== *)
(** ** [parse_guid] on any identifier                                     *)
(* ===================================================================== *)

(** X9.  [parse_guid] accepts exactly the well-formed identifiers.  For an
    identifier of ASCII characters [winrt::guid] is given the identifier's
    own characters, although the conversion has reported failure; and
    [parse_guid] returns a GUID exactly for the 36-character 8-4-4-4-12
    hexadecimal texts, raising on every other identifier: too short or too
    long, misplaced dashes, a character that is not a hexadecimal digit, a
    byte that is not ASCII. *)
Theorem X9_parse_guid_accepts_exactly_uuid_text (uuid_cstr : string) :
  (forallb low (c_chars uuid_cstr) = true ->
     parse_guid uuid_cstr = winrt_guid (c_chars uuid_cstr))
  /\ ((exists g, parse_guid uuid_cstr = inl g) <-> well_formed_uuid uuid_cstr = true)
  /\ ((exists e, parse_guid uuid_cstr = inr e) <-> well_formed_uuid uuid_cstr = false).
Proof.
  split; [|split].
  - intros Hlow. pose proof (proj1 (parse_guid_view uuid_cstr) Hlow) as Hview.
    unfold parse_guid. destruct (parse_guid_conversion uuid_cstr) as [ret buf].
    cbn [snd] in Hview. now rewrite Hview.
  - split.
    + intros [g Hg]. destruct (well_formed_uuid uuid_cstr) eqn:E; [reflexivity|].
      destruct (parse_guid_malformed _ E) as [e He]. congruence.
    + intros Hwf. apply parse_guid_well_formed, Hwf.
  - split.
    + intros [e He]. destruct (well_formed_uuid uuid_cstr) eqn:E; [|reflexivity].
      destruct (parse_guid_well_formed _ E) as [_ [g Hg]]. congruence.
    + apply parse_guid_malformed.
Qed.

Lemma X9_parse_guid_witness :
  forallb low (c_chars "0000FFE0-0000-1000-8000-00805F9B34FB") = true
  /\ parse_guid "0000FFE0-0000-1000-8000-00805F9B34FB"
     = winrt_guid (c_chars "0000FFE0-0000-1000-8000-00805F9B34FB").
Proof.
  split; [reflexivity|].
  exact (proj1 (X9_parse_guid_accepts_exactly_uuid_text
                  "0000FFE0-0000-1000-8000-00805F9B34FB") eq_refl).
Defined.

(** X10.  The conversion of line 31 never writes outside the buffer of
    line 30: for every identifier the buffer has afterwards the [strlen]
    units it was allocated with.  For every non-empty ASCII identifier,
    well-formed or not, the call returns 0; for the empty identifier the
    buffer is empty, the call is a size query that answers 1 and writes
    nothing, and [parse_guid] raises. *)
Theorem X10_conversion_stays_in_buffer (uuid_cstr : string) :
  List.length (snd (parse_guid_conversion uuid_cstr)) = strlen uuid_cstr
  /\ (c_chars uuid_cstr <> [] -> forallb low (c_chars uuid_cstr) = true ->
      fst (parse_guid_conversion uuid_cstr) = 0%Z)
  /\ (c_chars uuid_cstr = [] ->
      parse_guid_conversion uuid_cstr = (1%Z, [])
      /\ exists e, parse_guid uuid_cstr = inr e).
Proof.
  split; [|split].
  - rewrite parse_guid_conversion_eq. cbv zeta. unfold strlen.
    destruct (Nat.eqb_spec (List.length (c_chars uuid_cstr)) 0) as [E|E].
    + now rewrite E.
    + match goal with |- context [Nat.leb ?x ?y] => destruct (Nat.leb_spec x y) end;
        cbn [snd].
      * rewrite length_app, length_skipn, repeat_length. lia.
      * rewrite length_firstn. lia.
  - intros Hne Hlow. now rewrite (parse_guid_conversion_ascii _ Hlow Hne).
  - intros Hempty. split.
    + rewrite parse_guid_conversion_eq. cbv zeta. rewrite Hempty. reflexivity.
    + apply parse_guid_malformed. unfold well_formed_uuid. now rewrite Hempty.
Qed.

Lemma X10_conversion_witness :
  c_chars "hello" <> []
  /\ forallb low (c_chars "hello") = true
  /\ fst (parse_guid_conversion "hello") = 0%Z.
Proof.
  split; [discriminate|]. split; [reflexivity|].
  exact (proj1 (proj2 (X10_conversion_stays_in_buffer "hello"))
           ltac:(discriminate) eq_refl).
Defined.

(* ===================================================================== *)
(** ** The display name                                                   *)
(* ===================================================================== *)

(** X11.  The display name given to [start] has no effect: an execution in
    which the calls of [start] carry other names goes through the same
    worlds, with the same threads, requests and trace. *)
Theorem X11_display_name_unused (f : string -> string) (ls : list Label)
    (w : World) :
  run (map (rename_start f) ls) w = run ls w.
Proof.
  revert w. induction ls as [|l ls IH]; intros w; cbn [map run]; [reflexivity|].
  assert (E : step (rename_start f l) w = step l w) by (destruct l; reflexivity).
  rewrite E. destruct (step l w); [apply IH|reflexivity].
Qed.

(* ===================================================================== *)
(** ** The handler cut at the test of the sink                            *)
(* ===================================================================== *)

Lemma handler_tests_sink_spec value w :
  handler_tests_sink value w
  = (emit GetRequestAsync (emit GetDeferral w), mk_flight value (g_callback w)).
Proof.
  unfold handler_tests_sink.
  destruct (read_loop_payload value) as (reader & -> & _).
  destruct w; reflexivity.
Qed.

(** The two parts, run one after the other, are the handler. *)
Lemma handler_parts_compose reread value w :
  handler_calls_sink reread (snd (handler_tests_sink value w))
                     (fst (handler_tests_sink value w))
  = WriteRequested_handler value w.
Proof.
  rewrite handler_tests_sink_spec. unfold WriteRequested_handler.
  destruct (read_loop_payload value) as (reader & -> & _).
  destruct w as [rn gsp cb th ctl al os tr].
  destruct cb, reread; reflexivity.
Qed.

Lemma handler_calls_sink_frame reread fl w :
  let w' := handler_calls_sink reread fl w in
  running w' = running w /\ g_callback w' = g_callback w
  /\ ble_thread w' = ble_thread w /\ control w' = control w.
Proof.
  unfold handler_calls_sink.
  destruct w as [rn gsp cb th ctl al os tr].
  destruct (fl_tested fl), reread, cb; cbn; auto.
Qed.

Lemma handler_calls_sink_events reread fl w :
  g_callback w = None ->
  exists new,
    trace (handler_calls_sink reread fl w) = trace w ++ new
    /\ forall e, In e (sink_calls new) ->
         exists callback,
           fl_tested fl = Some callback
           /\ e = callback_called callback (fl_data fl) (List.length (fl_data fl)).
Proof.
  intros Hcb. unfold handler_calls_sink. rewrite Hcb.
  destruct w as [rn gsp cb th ctl al os tr].
  destruct (fl_tested fl) as [tested|], reread; cbn.
  - exists []. split; [now rewrite app_nil_r|intros e []].
  - eexists. split; [rewrite <- !app_assoc; reflexivity|].
    cbn. intros e [<-|[]]. eauto.
  - eexists. split; [rewrite <- !app_assoc; reflexivity|]. intros e [].
  - eexists. split; [rewrite <- !app_assoc; reflexivity|]. intros e [].
Qed.

Lemma In_remove_nth {A} (x : A) l : forall i, In x (remove_nth i l) -> In x l.
Proof.
  induction l as [|y t IH]; intros [|i]; cbn; auto.
  intros [->|H]; [left; reflexivity|right; eapply IH; eassumption].
Qed.

Lemma in_stop_move sink m s s' :
  in_stop sink (coarse s) -> is_return_move m = false -> move m s = Some s' ->
  in_stop sink (coarse s').
Proof.
  intros Hin Hm H. destruct m as [l|value|i reread]; cbn [move] in H.
  - destruct (step l (coarse s)) as [w'|] eqn:E; [|discriminate].
    inversion H; subst; clear H. cbn [coarse].
    eapply in_stop_step; [exact Hin| |exact E]. destruct l; auto.
  - destruct (alive (coarse s) && write_deliverable (coarse s)); [|discriminate].
    rewrite handler_tests_sink_spec in H. inversion H; subst; clear H.
    exact Hin.
  - destruct (alive (coarse s)); [|discriminate].
    destruct (nth_error (in_flight s) i) as [fl|]; [|discriminate].
    inversion H; subst; clear H. cbn [coarse].
    pose proof (handler_calls_sink_frame reread fl (coarse s)) as F.
    cbv zeta in F. destruct F as (F1 & F2 & F3 & F4).
    unfold in_stop. rewrite F1, F2, F3, F4. exact Hin.
Qed.

Lemma in_stop_moves sink ms : forall s s',
  in_stop sink (coarse s) -> Forall (fun m => is_return_move m = false) ms ->
  moves ms s = Some s' -> in_stop sink (coarse s').
Proof.
  induction ms as [|m ms IH]; cbn [moves]; intros s s' Hin Hms H.
  - inversion H; subst; assumption.
  - inversion Hms; subst.
    destruct (move m s) as [s1|] eqn:E; [|discriminate].
    eapply IH; [|eassumption|eassumption].
    eapply in_stop_move; eassumption.
Qed.

Lemma after_return_move flights m s s' :
  after_return flights s -> is_start_move m = false -> move m s = Some s' ->
  after_return flights s'
  /\ exists new,
       trace (coarse s') = trace (coarse s) ++ new
       /\ forall e, In e (sink_calls new) -> call_of_flight flights e.
Proof.
  intros [Hcb Hfl] Hm H. destruct m as [l|value|i reread]; cbn [move] in H.
  - destruct (step l (coarse s)) as [w'|] eqn:E; [|discriminate].
    inversion H; subst; clear H. cbn [coarse in_flight].
    assert (Hl : is_call_start l = false) by (destruct l; auto).
    destruct (silent_step _ _ _ Hcb Hl E) as [Hcb' Hs].
    destruct (step_extends _ _ _ E) as [new Hnew].
    split; [split; assumption|].
    exists new. split; [assumption|].
    rewrite Hnew, sink_calls_app in Hs.
    rewrite <- (app_nil_r (sink_calls (trace (coarse s)))) in Hs at 2.
    apply app_inv_head in Hs. rewrite Hs. intros e [].
  - destruct (alive (coarse s) && write_deliverable (coarse s)); [|discriminate].
    rewrite handler_tests_sink_spec in H. inversion H; subst; clear H.
    cbn [coarse in_flight]. split; [split|].
    + exact Hcb.
    + intros fl Hin Hne. apply in_app_or in Hin as [Hin|[<-|[]]]; [auto|].
      cbn in Hne. rewrite Hcb in Hne. contradiction.
    + exists [GetDeferral; GetRequestAsync]. split.
      * destruct (coarse s); cbn. now rewrite <- app_assoc.
      * intros e [].
  - destruct (alive (coarse s)); [|discriminate].
    destruct (nth_error (in_flight s) i) as [fl|] eqn:En; [|discriminate].
    inversion H; subst; clear H. cbn [coarse in_flight].
    pose proof (handler_calls_sink_frame reread fl (coarse s)) as F.
    cbv zeta in F. destruct F as (_ & F2 & _).
    unfold after_return. cbn [coarse in_flight].
    split; [split|].
    + now rewrite F2.
    + intros fl' Hin Hne. apply In_remove_nth in Hin. auto.
    + destruct (handler_calls_sink_events reread fl (coarse s) Hcb)
        as (new & Hnew & Hcalls).
      exists new. split; [assumption|].
      intros e He. destruct (Hcalls e He) as (callback & Ht & ->).
      exists fl, callback. split; [|auto].
      apply Hfl; [eapply nth_error_In; eassumption|congruence].
Qed.

Lemma after_return_moves flights ms : forall s s',
  after_return flights s -> Forall (fun m => is_start_move m = false) ms ->
  moves ms s = Some s' ->
  after_return flights s'
  /\ exists new,
       trace (coarse s') = trace (coarse s) ++ new
       /\ forall e, In e (sink_calls new) -> call_of_flight flights e.
Proof.
  induction ms as [|m ms IH]; cbn [moves]; intros s s' Ha Hms H.
  - inversion H; subst. split; [assumption|].
    exists []. split; [now rewrite app_nil_r|intros e []].
  - inversion Hms as [|? ? Hm Hms']; subst.
    destruct (move m s) as [s1|] eqn:E; [|discriminate].
    destruct (after_return_move _ _ _ _ Ha Hm E) as (Ha1 & new1 & Hn1 & Hc1).
    destruct (IH s1 s' Ha1 Hms' H) as (Ha' & new2 & Hn2 & Hc2).
    split; [assumption|].
    exists (new1 ++ new2). split; [now rewrite Hn2, Hn1, app_assoc|].
    intros e He. rewrite sink_calls_app in He.
    apply in_app_or in He as [He|He]; auto.
Qed.

(** From a running state [stop] reaches its return, whatever the stack
    answers. *)
Lemma stop_reaches_idle (w : World) (rs : list BluetoothError) :
  reachable w -> control w = Idle -> running w = true ->
  (9 <= List.length rs)%nat ->
  exists k w',
    (k <= 9)%nat
    /\ run (call_stop :: map background (firstn k rs)
              ++ [join_returns; stop_returns]) w = Some w'
    /\ control w' = Idle /\ running w' = false /\ g_callback w' = None
    /\ ble_thread w' = not_a_thread /\ alive w' = true.
Proof.
  intros Hreach Hidle Hrunning Hrs.
  pose proof (reachable_invariant w Hreach) as Hinv.
  assert (Hs : step call_stop w = Some (stop_enter w))
    by (unfold step; now rewrite (proj1 Hinv), Hidle).
  pose proof (invariant_step _ _ _ Hinv Hs) as Hinv1.
  assert (E : stop_enter w = set_control Stop_L116_join (set_running false w))
    by (unfold stop_enter; now rewrite Hrunning).
  assert (Hfinish : forall w2,
            alive w2 = true -> control w2 = Stop_L116_join ->
            has_returned (ble_thread w2) = true ->
            exists w', run [join_returns; stop_returns] w2 = Some w'
              /\ control w' = Idle /\ running w' = running w2
              /\ g_callback w' = None
              /\ ble_thread w' = not_a_thread /\ alive w' = true).
  { intros w2 Hal2 Hc2 Hret.
    destruct w2 as [rn gsp cb th ctl al os tr]. cbn in Hal2, Hc2, Hret. subst.
    destruct th as [|su cu pc]; [|destruct pc; try discriminate Hret];
      eexists; (split; [reflexivity|]); cbn; auto 10. }
  destruct (ble_thread w) as [|su cu pc] eqn:Et.
  - destruct (Hfinish (stop_enter w)) as (w' & Hrun & Hc & Hr & Hcb & Hth & Hal).
    + apply Hinv1.
    + rewrite E. reflexivity.
    + rewrite E. cbn. now rewrite Et.
    + exists 0%nat, w'. cbn [firstn map app run]. rewrite Hs.
      rewrite E in Hr. cbn in Hr.
      split; [lia|]. auto 10.
  - destruct (thread_returns 9 (stop_enter w) su cu pc rs Hinv1)
      as (k & w2 & Hk & Hrun2 & Hinv2 & Ht2 & Hr2 & Hc2 & _).
    + rewrite E. reflexivity.
    + rewrite E. cbn. exact Et.
    + destruct pc; cbn; lia.
    + exact Hrs.
    + destruct (Hfinish w2) as (w' & Hrun & Hc & Hr & Hcb & Hth & Hal).
      * apply Hinv2.
      * rewrite Hc2, E. reflexivity.
      * now rewrite Ht2.
      * exists k, w'. cbn [run]. rewrite Hs, run_app, Hrun2.
        split; [assumption|]. split; [assumption|]. split; [assumption|].
        split; [congruence|]. auto.
Qed.

(* ===================================================================== *)
(** ** [stop_ble_server] from a running state                            *)
(* ===================================================================== *)

(** C3, as amended.  Called in a reachable world where the flag is set,
    [stop_ble_server] first clears the flag and keeps the stored sink and the
    thread as they are.  It returns: whatever the stack answers, the lambda
    returns within nine blocks, the join and the return follow and leave the
    flag clear, no sink and no thread.  In every execution from its first
    block up to its return, with handlers cut at the test of the sink and
    interleaved at will, the flag stays clear and the sink stays stored; the
    join is blocked as long as the thread's function has not returned, and
    leaves no thread; the return, which can only follow the join, clears the
    sink.  In every execution after that return which does not call [start]
    again no sink is stored, and every sink call recorded is made by a
    handler that was in flight, its test passed, when [stop] returned; with
    none in flight there is no sink call. *)
Theorem C3_stop_joins_then_clears_sink (w : World) (Hreach : reachable w)
    (Hidle : control w = Idle) (Hrunning : running w = true) :
  step call_stop w = Some (stop_enter w)
  /\ running (stop_enter w) = false
  /\ g_callback (stop_enter w) = g_callback w
  /\ ble_thread (stop_enter w) = ble_thread w
  /\ control (stop_enter w) = Stop_L116_join
  /\ (forall rs, (9 <= List.length rs)%nat ->
        exists k w',
          (k <= 9)%nat
          /\ run (call_stop :: map background (firstn k rs)
                    ++ [join_returns; stop_returns]) w = Some w'
          /\ control w' = Idle /\ running w' = false /\ g_callback w' = None
          /\ ble_thread w' = not_a_thread)
  /\ forall flights ms s2,
       Forall (fun m => is_return_move m = false) ms ->
       moves ms (mk_interleaved (stop_enter w) flights) = Some s2 ->
       running (coarse s2) = false
       /\ g_callback (coarse s2) = g_callback w
       /\ (has_returned (ble_thread (coarse s2)) = false ->
           move (atomic join_returns) s2 = None)
       /\ (forall s3, move (atomic join_returns) s2 = Some s3 ->
             has_returned (ble_thread (coarse s2)) = true
             /\ ble_thread (coarse s3) = not_a_thread
             /\ g_callback (coarse s3) = g_callback w)
       /\ (forall s3, move (atomic stop_returns) s2 = Some s3 ->
             ble_thread (coarse s3) = not_a_thread
             /\ g_callback (coarse s3) = None
             /\ running (coarse s3) = false
             /\ control (coarse s3) = Idle
             /\ in_flight s3 = in_flight s2
             /\ forall ms' s4,
                  Forall (fun m => is_start_move m = false) ms' ->
                  moves ms' s3 = Some s4 ->
                  g_callback (coarse s4) = None
                  /\ (forall e,
                        In e (sink_calls (events_since (coarse s3) (coarse s4))) ->
                        call_of_flight (in_flight s3) e)
                  /\ (in_flight s3 = [] ->
                      sink_calls (events_since (coarse s3) (coarse s4)) = [])).
Proof.
  pose proof (reachable_invariant w Hreach) as (Halive & _).
  assert (E : stop_enter w = set_control Stop_L116_join (set_running false w))
    by (unfold stop_enter; now rewrite Hrunning).
  split; [unfold step; now rewrite Halive, Hidle|].
  rewrite E. cbn [running g_callback ble_thread control set_control set_running].
  do 4 (split; [reflexivity|]).
  split.
  { intros rs Hrs.
    destruct (stop_reaches_idle w rs Hreach Hidle Hrunning Hrs)
      as (k & w' & Hk & Hrun & Hc & Hr & Hcb & Ht & _).
    exists k, w'. auto 10. }
  intros flights ms s2 Hms Hmoves.
  assert (Hin : in_stop (g_callback w) (coarse s2)).
  { eapply in_stop_moves; [|eassumption|eassumption].
    repeat split; cbn; auto. }
  destruct Hin as (Hr2 & Hcb2 & Hc2).
  split; [assumption|]. split; [assumption|].
  split; [|split].
  - intros Hnot. cbn [move]. unfold step.
    destruct (alive (coarse s2)); [|reflexivity]. cbn [negb].
    destruct (control (coarse s2)); try reflexivity. unfold stop_join.
    destruct (ble_thread (coarse s2)) as [|su cu pc];
      [discriminate Hnot|destruct pc; try reflexivity; discriminate Hnot].
  - intros s3 Hj. cbn [move] in Hj.
    destruct (step join_returns (coarse s2)) as [w3|] eqn:Ej; [|discriminate].
    inversion Hj; subst; clear Hj. cbn [coarse].
    unfold step in Ej.
    destruct (alive (coarse s2)); [|discriminate]. cbn [negb] in Ej.
    destruct (control (coarse s2)); try discriminate. unfold stop_join in Ej.
    destruct (coarse s2) as [rn gsp cb th ctl al os tr]; cbn in *.
    destruct th as [|su cu pc]; [|destruct pc]; inversion Ej; subst; clear Ej;
      cbn; auto.
  - intros s3 Hs. cbn [move] in Hs.
    destruct (step stop_returns (coarse s2)) as [w3|] eqn:Es; [|discriminate].
    inversion Hs; subst; clear Hs. cbn [coarse in_flight].
    unfold step in Es.
    destruct (alive (coarse s2)); [|discriminate]. cbn [negb] in Es.
    destruct Hc2 as [Hc2|[Hc2 Ht2]]; rewrite Hc2 in Es; [discriminate|].
    inversion Es; subst; clear Es.
    cbn [stop_clear set_control set_g_callback ble_thread g_callback running control].
    do 5 (split; [assumption || reflexivity|]).
    intros ms' s4 Hms' Hmoves'.
    assert (Ha : after_return (in_flight s2)
                   (mk_interleaved (stop_clear (coarse s2)) (in_flight s2))).
    { split; [reflexivity|]. cbn [in_flight]. auto. }
    destruct (after_return_moves _ _ _ _ Ha Hms' Hmoves')
      as ([Hcb4 _] & new & Hnew & Hcalls).
    cbn [coarse] in Hnew.
    rewrite (events_since_app _ _ _ Hnew).
    split; [assumption|]. split; [assumption|].
    intros Hnone. destruct (sink_calls new) as [|e t] eqn:Ecalls; [reflexivity|].
    destruct (Hcalls e (or_introl eq_refl)) as (fl & _ & Hin & _).
    rewrite Hnone in Hin. contradiction.
Qed.

Lemma C3_stop_witness :
  reachable serving_world
  /\ running serving_world = true
  /\ running (stop_enter serving_world) = false
  /\ g_callback (stop_enter serving_world) = Some 1%nat
  /\ exists k w',
       run (call_stop :: map background (firstn k (repeat Success 9))
              ++ [join_returns; stop_returns]) serving_world = Some w'
       /\ g_callback w' = None /\ ble_thread w' = not_a_thread.
Proof.
  pose proof (C3_stop_joins_then_clears_sink serving_world
                serving_world_reachable eq_refl eq_refl)
    as (_ & Hflag & Hsink & _ & _ & Hlive & _).
  split; [exact serving_world_reachable|]. split; [reflexivity|].
  split; [exact Hflag|]. split; [exact Hsink|].
  destruct (Hlive (repeat Success 9) (le_n 9))
    as (k & w' & _ & Hrun & _ & _ & Hcb & Ht).
  exists k, w'. split; [exact Hrun|]. split; [exact Hcb|exact Ht].
Defined.

(** C3 as stated fails in its last clause.  A write request is delivered
    while the server runs and its handler passes the test of line 82; [stop]
    is then called, joins the thread, clears the sink and returns; the
    handler goes on to line 83 with the pointer its test has seen, and the
    sink is called after [stop] has returned. *)
Lemma C3_straggler_counterexample :
  moves straggler_moves initially = Some stopped_with_straggler
  /\ control (coarse stopped_with_straggler) = Idle
  /\ running (coarse stopped_with_straggler) = false
  /\ g_callback (coarse stopped_with_straggler) = None
  /\ ble_thread (coarse stopped_with_straggler) = not_a_thread
  /\ move (handler_calls 0 false) stopped_with_straggler
     = Some (after_moves (straggler_moves ++ [handler_calls 0 false]))
  /\ events_since (coarse stopped_with_straggler)
       (coarse (after_moves (straggler_moves ++ [handler_calls 0 false])))
     = [callback_called 1 [Byte.x01] 1; Respond; deferral_Complete].
Proof. repeat split; vm_compute; reflexivity. Qed.

(* ===================================================================== *)
(** ** The characteristic of a setup                                      *)
(* ===================================================================== *)

(** C7.  The parameters built at lines 59-62 carry the Write property and
    no other (in particular neither Read, Notify nor Indicate), write
    protection level Plain and the description "Command Receiver".  In every
    reachable world: each characteristic the stack holds, and each request
    for one recorded in the trace, carries exactly these parameters, and the
    stack holds at most one characteristic; where the lambda is about to
    request the characteristic, its block requests it from the service of
    [g_service_provider] with these parameters, and when the stack accepts,
    the stack holds exactly that characteristic; and from the idle state, a
    [start] on well-formed identifiers followed by a setup the stack accepts
    makes one request for a characteristic and ends with exactly one
    characteristic, with these parameters and the handler subscribed. *)
Theorem C7_characteristic_is_plain_write_only (w : World) (Hreach : reachable w) :
  CharacteristicProperties charParams = GattCharacteristicProperties.Write
  /\ GattCharacteristicProperties.has GattCharacteristicProperties.Write
       (CharacteristicProperties charParams) = true
  /\ (forall flag,
        In flag [GattCharacteristicProperties.Broadcast;
                 GattCharacteristicProperties.Read;
                 GattCharacteristicProperties.WriteWithoutResponse;
                 GattCharacteristicProperties.Notify;
                 GattCharacteristicProperties.Indicate;
                 GattCharacteristicProperties.AuthenticatedSignedWrites;
                 GattCharacteristicProperties.ExtendedProperties;
                 GattCharacteristicProperties.ReliableWrites;
                 GattCharacteristicProperties.WritableAuxiliaries] ->
        GattCharacteristicProperties.has flag (CharacteristicProperties charParams) = false)
  /\ WriteProtectionLevel charParams = Plain
  /\ UserDescription charParams = "Command Receiver"
  /\ (forall ch, In ch (characteristics (stack w)) -> ch_params ch = charParams)
  /\ (forall service char_guid params error,
        In (CreateCharacteristicAsync service char_guid params error) (trace w) ->
        params = charParams)
  /\ (List.length (characteristics (stack w)) <= 1)%nat
  /\ (forall su cu char_guid reply,
        ble_thread w = thread_of su cu (L59_CreateCharacteristicAsync char_guid) ->
        exists provider w',
          g_service_provider w = Some provider
          /\ step (background reply) w = Some w'
          /\ hd_error (events_since w w')
             = Some (CreateCharacteristicAsync provider char_guid charParams reply)
          /\ (reply = Success ->
              characteristics (stack w')
              = [mk_characteristic provider char_guid charParams]))
  /\ (forall name su cu callback,
        control w = Idle -> running w = false ->
        well_formed_uuid su = true -> well_formed_uuid cu = true ->
        exists w' ch,
          run (call_start name su cu callback :: repeat (background Success) 7) w
            = Some w'
          /\ characteristics (stack w') = [ch]
          /\ ch_params ch = charParams
          /\ write_handlers (stack w') = [ch]
          /\ count_events is_characteristic_request (events_since w w') = 1%nat).
Proof.
  destruct (reachable_params_inv w Hreach) as [Htr Hch].
  pose proof (reachable_invariant w Hreach) as (Hal & Hth & Hct & _).
  do 5 (split; [first [reflexivity
                      | intros flag Hin; cbn in Hin;
                        repeat (destruct Hin as [<-|Hin]; [reflexivity|]);
                        contradiction]|]).
  split; [intros ch Hin; rewrite Forall_forall in Hch; now apply Hch|].
  split; [intros service char_guid params error Hin;
          rewrite Forall_forall in Htr; exact (Htr _ Hin)|].
  split; [apply one_pair_at_most, reachable_invariant, Hreach|].
  split.
  - intros su cu char_guid reply Ht.
    unfold thread_inv, nothing_active in Hth. rewrite Ht in Hth.
    destruct Hth as [(Hc & Hh & Ha) Hgsp].
    destruct w as [rn gsp cb th ctl al os tr]. destruct os as [nx sv chs hs adv].
    cbn in Hal, Ht, Hc, Hh, Ha, Hgsp. subst.
    destruct gsp as [p|]; [|contradiction].
    exists p. unfold step, thread_step, thread_block.
    cbn [alive negb ble_thread g_service_provider].
    destruct reply; cbn -[line events_since]; eexists;
      (split; [reflexivity|]); (split; [reflexivity|]);
      (split; [unfold events_since; cbn -[line];
               rewrite <- ?app_assoc, skipn_app, skipn_all, Nat.sub_diag;
               reflexivity
              |intros Hs; first [reflexivity|discriminate Hs]]).
  - intros name su cu callback Hidle Hstopped Hsu Hcu.
    destruct (parse_guid_well_formed su Hsu) as [_ [sg Hsg]].
    destruct (parse_guid_well_formed cu Hcu) as [_ [cg Hcg]].
    unfold control_inv in Hct. rewrite Hidle in Hct. specialize (Hct Hstopped).
    unfold thread_inv, nothing_active in Hth. rewrite Hct in Hth.
    destruct Hth as (Hc & Hh & Ha).
    destruct w as [rn gsp cb th ctl al os tr]. destruct os as [nx sv chs hs adv].
    cbn in Hal, Hidle, Hstopped, Hct, Hc, Hh, Ha. subst.
    cbn [run]. rewrite start_from_idle.
    rewrite (setup_runs _ _ _ _ _ _ _ _ _ _ _ Hsg Hcg).
    eexists. exists (mk_characteristic nx cg charParams).
    split; [reflexivity|]. cbn [stack characteristics write_handlers ch_params].
    do 3 (split; [reflexivity|]).
    erewrite events_since_app;
      [|cbn [trace]; rewrite <- app_assoc; reflexivity].
    reflexivity.
Qed.

Lemma C7_characteristic_witness :
  reachable initial
  /\ exists ch,
       characteristics (stack serving_world) = [ch]
       /\ ch_params ch = mk_char_params 8 Plain Plain "Command Receiver"
       /\ write_handlers (stack serving_world) = [ch].
Proof.
  split; [exact reachable_initial|].
  pose proof (C7_characteristic_is_plain_write_only initial reachable_initial) as H.
  destruct (proj2 (proj2 (proj2 (proj2 (proj2 (proj2 (proj2 (proj2 (proj2 H))))))))
              "presenterd" demo_service demo_characteristic (Some 1%nat)
              eq_refl eq_refl eq_refl eq_refl)
    as (w' & ch & Hrun & Hc & Hp & Hh & _).
  assert (E : w' = serving_world).
  { assert (Hrun' : run (serving_labels (Some 1%nat)) initial = Some serving_world)
      by (vm_compute; reflexivity).
    unfold serving_labels in Hrun'. rewrite Hrun' in Hrun. congruence. }
  subst w'. exists ch. split; [exact Hc|]. split; [exact Hp|exact Hh].
Defined.
